(** * Control client of the management API: protocol codec and inbound dispatch

    A shallow embedding of the websocket control client
    ([Client], [build], [buildMsg], [deserialise], [_handle], [reconfigure])
    together with the JSON-Patch operations it drives.

    Layout:
    - [value] / [json]   : JavaScript run-time values and JSON text trees;
    - [Patch]            : JSON-Patch documents, pointers, apply and diff;
    - section [ControlClient] : codec, builders, session state and dispatch;
    - theorems about the above. *)

From Stdlib Require Import ZArith Ascii DecimalString DecimalNat DecimalFacts.
From stdpp Require Import gmap strings list fin_maps option.

Local Set Warnings "-register-all".
Local Open Scope Z_scope.
Local Open Scope nat_scope.

(** ** Numbers

    The numbers of the model are the integers of magnitude at most [2^53]:
    each of them is a double, [JSON.parse] reads its literal without
    rounding and [JSON.stringify] writes it back digit for digit.  Literals
    with a fraction or an exponent, the literal [-0], and integers beyond
    that range (which [JSON.parse] rounds, or reads as [Infinity]) are
    outside the model. *)
Definition safe (n : Z) : Prop := (- 2 ^ 53 ≤ n ≤ 2 ^ 53)%Z.

Global Instance safe_dec n : Decision (safe n).
Proof. unfold safe. apply _. Defined.

Definition number := dsig safe.

(** The number written [n]; [0] stands in for an [n] out of range (none is
    ever written: the octets of a [Buffer] are in range). *)
Definition int (n : Z) : number :=
  match bool_decide (safe n) as b return (Is_true b → number) → number with
  | true => fun k => k I
  | false => fun _ => 0%Z ↾ I
  end (fun p => n ↾ p).

(** ** Values

    Run-time values reachable from a decoded message or from a configuration
    document.  Objects are finite maps from property names to values and
    [VBuffer] is a Node [Buffer] holding octets. *)
Inductive value :=
| VNull
| VBool (b : bool)
| VNum (n : number)
| VStr (s : string)
| VArr (l : list value)
| VObj (m : gmap string value)
| VBuffer (bytes : list Z).

(** JSON text trees: what [JSON.parse] reads and [JSON.stringify] writes. *)
Inductive json :=
| JNull
| JBool (b : bool)
| JNumber (n : number)
| JString (s : string)
| JArray (l : list json)
| JObject (m : gmap string json).

Fixpoint value_size (v : value) : nat :=
  match v with
  | VArr l => S (foldr (fun x acc => value_size x + acc) 0 l)
  | VObj m => S (map_fold (fun _ x acc => value_size x + acc) 0 m)
  | _ => 1
  end.

Global Instance value_eq_dec : EqDecision value.
Proof.
  refine (fix go (x y : value) {struct x} : Decision (x = y) :=
    let _ : EqDecision value := @go in
    match x, y with
    | VNull, VNull => left _
    | VBool a, VBool b => cast_if (decide (a = b))
    | VNum a, VNum b => cast_if (decide (a = b))
    | VStr a, VStr b => cast_if (decide (a = b))
    | VArr a, VArr b => cast_if (decide (a = b))
    | VObj a, VObj b => cast_if (decide (a = b))
    | VBuffer a, VBuffer b => cast_if (decide (a = b))
    | _, _ => right _
    end); congruence.
Defined.

(** ** JSON Patch *)
Module Patch.

(** A JSON pointer, as its list of unescaped reference tokens. *)
Definition pointer := list string.

(** Array positions are written in decimal. *)
Definition show_index (i : nat) : string :=
  NilZero.string_of_uint (Nat.to_uint i).

Definition parse_index (s : string) : option nat :=
  Nat.of_uint <$> NilZero.uint_of_string s.

(** Modelled from the spec: the structural edit operations of a PatchSet
    ([add]/[remove]/[replace]/[move]/[copy]/[test], keyed by path); the
    library that implements them (fast-json-patch) is a dependency and is not
    part of the sources. *)
Inductive operation :=
| OpAdd (path : pointer) (v : value)
| OpRemove (path : pointer)
| OpReplace (path : pointer) (v : value)
| OpMove (from path : pointer)
| OpCopy (from path : pointer)
| OpTest (path : pointer) (v : value).

Global Instance operation_eq_dec : EqDecision operation.
Proof. solve_decision. Defined.

Definition child (d : value) (k : string) : option value :=
  match d with
  | VObj m => m !! k
  | VArr l => i ← parse_index k; l !! i
  | _ => None
  end.

Fixpoint get (d : value) (p : pointer) : option value :=
  match p with
  | [] => Some d
  | k :: p' => c ← child d k; get c p'
  end.

(** Overwrite a member that exists. *)
Definition set_child (v : value) (d : value) (k : string) : option value :=
  match d with
  | VObj m => match m !! k with
              | Some _ => Some (VObj (<[k:=v]> m))
              | None => None
              end
  | VArr l => i ← parse_index k;
              if decide (i < length l) then Some (VArr (<[i:=v]> l)) else None
  | _ => None
  end.

(** Add a member: objects gain or overwrite the key, arrays insert before
    position [i] (or append, for the token "-"). *)
Definition add_child (v : value) (d : value) (k : string) : option value :=
  match d with
  | VObj m => Some (VObj (<[k:=v]> m))
  | VArr l =>
      if decide (k = "-"%string) then Some (VArr (l ++ [v]))
      else i ← parse_index k;
           if decide (i ≤ length l) then Some (VArr (take i l ++ v :: drop i l))
           else None
  | _ => None
  end.

Definition remove_child (d : value) (k : string) : option value :=
  match d with
  | VObj m => match m !! k with
              | Some _ => Some (VObj (delete k m))
              | None => None
              end
  | VArr l => i ← parse_index k;
              if decide (i < length l) then Some (VArr (delete i l)) else None
  | _ => None
  end.

(** Run the edit [f] on the container that holds the last token of [p];
    every container on the way must exist. *)
Fixpoint at_parent (f : value → string → option value)
    (d : value) (p : pointer) : option value :=
  match p with
  | [] => None
  | k :: p' =>
      match p' with
      | [] => f d k
      | _ => c ← child d k; c' ← at_parent f c p'; set_child c' d k
      end
  end.

Definition add (d : value) (p : pointer) (v : value) : option value :=
  match p with
  | [] => Some v
  | _ => at_parent (add_child v) d p
  end.

Definition remove (d : value) (p : pointer) : option value :=
  at_parent remove_child d p.

Definition replace (d : value) (p : pointer) (v : value) : option value :=
  match p with
  | [] => Some v
  | _ => at_parent (set_child v) d p
  end.

(** Modelled from the spec: one operation either yields the edited document
    or cannot be satisfied ([None]: path not found, failed test). *)
Definition apply_op (d : value) (o : operation) : option value :=
  match o with
  | OpAdd p v => add d p v
  | OpRemove p => remove d p
  | OpReplace p v => replace d p v
  | OpMove f p => v ← get d f; d' ← remove d f; add d' p v
  | OpCopy f p => v ← get d f; add d p v
  | OpTest p v => v' ← get d p; if decide (v' = v) then Some d else None
  end.

(** Modelled from the spec: [applyPatch(doc, patchSet) -> newDoc | ApplyError],
    operations in order, the whole set aborted by the first failure. *)
Fixpoint apply_ops (d : value) (ps : list operation) : option value :=
  match ps with
  | [] => Some d
  | o :: ps' => d' ← apply_op d o; apply_ops d' ps'
  end.

(** Members of two objects, compared with [D]: vanished keys are removed,
    common keys compared, new keys added. *)
Definition diff_members (D : pointer → value → value → list operation)
    (p : pointer) (m1 m2 : gmap string value) : list operation :=
  map_fold (fun k v1 acc =>
              match m2 !! k with
              | Some v2 => D (p ++ [k]) v1 v2
              | None => [OpRemove (p ++ [k])]
              end ++ acc) [] m1
  ++ map_fold (fun k v2 acc =>
                 match m1 !! k with
                 | None => OpAdd (p ++ [k]) v2 :: acc
                 | Some _ => acc
                 end) [] m2.

(** Elements of two arrays from position [i] on, compared with [D]: surplus
    old elements are removed from the end, surplus new ones added in order. *)
Fixpoint diff_elements (D : pointer → value → value → list operation)
    (p : pointer) (i : nat) (l1 l2 : list value) {struct l1} : list operation :=
  match l1, l2 with
  | x :: l1', y :: l2' =>
      D (p ++ [show_index i]) x y ++ diff_elements D p (S i) l1' l2'
  | _ :: _, [] =>
      (fun j => OpRemove (p ++ [show_index j])) <$> reverse (seq i (length l1))
  | [], _ =>
      imap (fun j y => OpAdd (p ++ [show_index (i + j)]) y) l2
  end.

(** Modelled from the spec: [diff(oldDoc, newDoc) -> PatchSet], the structural
    edit set from [old] to [new] ([jsonPatch.compare]); the comparing library
    (fast-json-patch) is a dependency and is not part of the sources.
    Objects are compared member by member, arrays position by position, and
    anything else that differs is replaced. *)
Fixpoint diff_at (p : pointer) (old new : value) {struct old} : list operation :=
  match old, new with
  | VObj m1, VObj m2 => diff_members (fun q a b => diff_at q a b) p m1 m2
  | VArr l1, VArr l2 => diff_elements (fun q a b => diff_at q a b) p 0 l1 l2
  | _, _ => if decide (old = new) then [] else [OpReplace p new]
  end.

Definition compare (tree1 tree2 : value) : list operation :=
  diff_at [] tree1 tree2.

(** [jsonPatch.applyPatch(document, patch)] as [_handle] calls it (line 339):
    the result is discarded and the argument object is read afterwards, so the
    edits must land in the object that was passed ("fast-json-patch
    explicitly mutates").  A callee cannot rebind the caller's variable: an
    operation on the whole document (empty path) can only be delivered
    through the return value, and from then on the edits no longer reach the
    object passed in.  The first component is what the passed object holds
    afterwards (edits made before a failure stay), the second is the returned
    document, [None] when the call throws. *)
Definition rebinds_root (o : operation) : bool :=
  match o with
  | OpAdd [] _ | OpReplace [] _ | OpMove _ [] | OpCopy _ [] | OpRemove [] => true
  | _ => false
  end.

Fixpoint applyPatch (obj : value) (ps : list operation) : value * option value :=
  match ps with
  | [] => (obj, Some obj)
  | o :: ps' =>
      match apply_op obj o with
      | None => (obj, None)
      | Some d' =>
          if rebinds_root o then (obj, apply_ops d' ps') else applyPatch d' ps'
      end
  end.

(** *** Patch sets on the wire

    A patch set travels as an array of [{op, path, value?, from?}] objects
    whose paths are JSON-pointer strings. *)
Fixpoint escapePathComponent (s : string) : string :=
  match s with
  | EmptyString => EmptyString
  | String c s' =>
      if Ascii.eqb c "~" then String "~" (String "0" (escapePathComponent s'))
      else if Ascii.eqb c "/" then String "~" (String "1" (escapePathComponent s'))
      else String c (escapePathComponent s')
  end.

Fixpoint unescapePathComponent (s : string) : string :=
  match s with
  | String "~" (String "1" s') => String "/" (unescapePathComponent s')
  | String "~" (String "0" s') => String "~" (unescapePathComponent s')
  | String c s' => String c (unescapePathComponent s')
  | EmptyString => EmptyString
  end.

Definition pointer_to_string (p : pointer) : string :=
  foldr (fun t acc => String "/" (escapePathComponent t +:+ acc)) EmptyString p.

(** [s.split('/')] *)
Fixpoint split_slash (s : string) : list string :=
  match s with
  | EmptyString => [EmptyString]
  | String c s' =>
      if Ascii.eqb c "/" then EmptyString :: split_slash s'
      else match split_slash s' with
           | t :: ts => String c t :: ts
           | [] => [String c EmptyString]
           end
  end.

Definition string_to_pointer (s : string) : option pointer :=
  match s with
  | EmptyString => Some []
  | String c s' =>
      if Ascii.eqb c "/" then Some (unescapePathComponent <$> split_slash s')
      else None
  end.

Definition operation_to_value (o : operation) : value :=
  let path p := VStr (pointer_to_string p) in
  match o with
  | OpAdd p v =>
      VObj {[ "op" := VStr "add"; "path" := path p; "value" := v ]}
  | OpRemove p =>
      VObj {[ "op" := VStr "remove"; "path" := path p ]}
  | OpReplace p v =>
      VObj {[ "op" := VStr "replace"; "path" := path p; "value" := v ]}
  | OpMove f p =>
      VObj {[ "op" := VStr "move"; "from" := path f; "path" := path p ]}
  | OpCopy f p =>
      VObj {[ "op" := VStr "copy"; "from" := path f; "path" := path p ]}
  | OpTest p v =>
      VObj {[ "op" := VStr "test"; "path" := path p; "value" := v ]}
  end%string.

Definition pointer_field (m : gmap string value) (k : string) : option pointer :=
  match m !! k with
  | Some (VStr s) => string_to_pointer s
  | _ => None
  end.

Definition value_to_operation (v : value) : option operation :=
  match v with
  | VObj m =>
      match m !! "op"%string with
      | Some (VStr name) =>
          p ← pointer_field m "path";
          if decide (name = "add"%string) then OpAdd p <$> m !! "value"%string
          else if decide (name = "remove"%string) then Some (OpRemove p)
          else if decide (name = "replace"%string)
               then OpReplace p <$> m !! "value"%string
          else if decide (name = "move"%string)
               then f ← pointer_field m "from"; Some (OpMove f p)
          else if decide (name = "copy"%string)
               then f ← pointer_field m "from"; Some (OpCopy f p)
          else if decide (name = "test"%string) then OpTest p <$> m !! "value"%string
          else None
      | _ => None
      end
  | _ => None
  end.

Definition value_of_patch (ps : list operation) : value :=
  VArr (operation_to_value <$> ps).

(** Modelled from the spec: for [CONFIGURATION]+[PATCH], [data] is a PatchSet,
    an ordered array of [{op, path, value?, from?}] edit operations; anything
    else is not a patch set. *)
Definition patch_of_value (data : value) : option (list operation) :=
  match data with
  | VArr l => mapM value_to_operation l
  | _ => None
  end.

(** *** Vocabulary of the correctness proofs *)

(** [D] computes, for [old] sitting anywhere in a document, edits that
    rewrite exactly that place to [new]. *)
Definition correct_on (D : pointer → value → value → list operation)
    (old : value) : Prop :=
  ∀ new p root, get root p = Some old →
    apply_ops root (D p old new) = replace root p new.

(** The members an object holds after the first and after the second pass
    of [diff_members]. *)
Definition updated (m2 : gmap string value) (L : list (string * value))
    (mc : gmap string value) : gmap string value :=
  foldl (fun acc kv => match m2 !! kv.1 with
                       | Some v2 => <[kv.1:=v2]> acc
                       | None => delete kv.1 acc
                       end) mc L.

Definition added (m1 : gmap string value) (L : list (string * value))
    (mc : gmap string value) : gmap string value :=
  foldl (fun acc kv => match m1 !! kv.1 with
                       | None => <[kv.1:=kv.2]> acc
                       | Some _ => acc
                       end) mc L.

(** The path of the container in which an edit at [p] is made. *)
Definition parent (p : pointer) : pointer := take (length p - 1) p.

(** An operation that cannot be satisfied on [d]: it reads a place that
    [d] does not have, or adds a member to one. *)
Definition unsatisfiable (d : value) (o : operation) : Prop :=
  match o with
  | OpRemove p | OpReplace p _ | OpTest p _ => get d p = None
  | OpMove f _ | OpCopy f _ => get d f = None
  | OpAdd p _ => get d (parent p) = None
  end.

(** An operation whose edits stay inside the object it is applied to. *)
Definition keeps_root (o : operation) : Prop := rebinds_root o = false.

(** Both documents are objects, or both are arrays. *)
Definition same_container (a b : value) : bool :=
  match a, b with
  | VObj _, VObj _ | VArr _, VArr _ => true
  | _, _ => false
  end.

End Patch.

(** ** The message protocol: messages, verbs, errors, events *)
Module MESSAGE.
Definition CONFIGURATION : string := "CONFIGURATION".
Definition ERROR : string := "ERROR".
End MESSAGE.

Module VERB.
Definition READ : string := "READ".
Definition NOTIFY : string := "NOTIFY".
Definition PATCH : string := "PATCH".
End VERB.

Module ERROR.
Definition UNSUPPORTED_MESSAGE : string := "UNSUPPORTED_MESSAGE".
Definition UNSUPPORTED_VERB : string := "UNSUPPORTED_VERB".
Definition JSON_PARSE_ERROR : string := "JSON_PARSE_ERROR".
End ERROR.

Module EVENT.
Definition RECONFIGURE : string := "RECONFIGURE".
End EVENT.

(** ** Frames and serialisation

    A frame handed over by the transport either is JSON text, given by the
    tree it denotes, or is not.  The text level of [JSON.parse] and
    [JSON.stringify] belongs to the platform and is not modelled further;
    text with a number literal that is not a [number] has no tree here. *)
Inductive frame :=
| Garbled (raw : string)
| JsonText (j : json).

(** The tree [JSON.stringify] writes for a value; a [Buffer] writes itself
    through its [toJSON] as [{"type":"Buffer","data":[...]}]. *)
Fixpoint toJSON (v : value) : json :=
  match v with
  | VNull => JNull
  | VBool b => JBool b
  | VNum n => JNumber n
  | VStr s => JString s
  | VArr l => JArray ((fun x => toJSON x) <$> l)
  | VObj m => JObject ((fun x => toJSON x) <$> m)
  | VBuffer bytes =>
      JObject {[ "type" := JString "Buffer";
                 "data" := JArray ((fun b => JNumber (int b)) <$> bytes) ]}
  end%string.

Definition serialise (v : value) : frame := JsonText (toJSON v).

(** [JSON.parse] without a reviver. *)
Fixpoint parse (j : json) : value :=
  match j with
  | JNull => VNull
  | JBool b => VBool b
  | JNumber n => VNum n
  | JString s => VStr s
  | JArray l => VArr ((fun x => parse x) <$> l)
  | JObject m => VObj ((fun x => parse x) <$> m)
  end.

(** An object literal whose [undefined] members [JSON.stringify] leaves out. *)
Definition object_of (fields : list (string * option value)) : value :=
  VObj (list_to_map (omap (fun kv => (fun v => (kv.1, v)) <$> kv.2) fields)).

(** No [Buffer] anywhere inside: such a value survives
    [JSON.parse(JSON.stringify(_))] unchanged. *)
Fixpoint buffer_free (v : value) : bool :=
  match v with
  | VArr l => foldr (fun x acc => buffer_free x && acc) true l
  | VObj m => map_fold (fun _ x acc => buffer_free x && acc) true m
  | VBuffer _ => false
  | _ => true
  end.

(** ** The world a client lives in *)
Definition loc := positive.

Inductive ReadyState := CONNECTING | OPEN | CLOSING | CLOSED.

(** The fields of a [Client]: its logger (by identity), the reference held in
    [_appConfig] ([None] is [undefined]), the remote port of [_socket] and
    the state of the websocket it extends. *)
Record Client := {
  _logger : nat;
  _appConfig : option loc;
  remotePort : Z;
  readyState : ReadyState
}.

(** [new Client({ address, port, logger, appConfig })]: the socket starts
    connecting. *)
Definition new_Client (port : Z) (logger : nat) (appConfig : option loc)
    : Client :=
  {| _logger := logger; _appConfig := appConfig; remotePort := port;
     readyState := CONNECTING |}.

(** [Client.Create]: the client its promise resolves with, once [open] has
    fired. *)
Definition Create (port : Z) (logger : nat) (appConfig : option loc) : Client :=
  let c := new_Client port logger appConfig in
  {| _logger := _logger c; _appConfig := _appConfig c;
     remotePort := remotePort c; readyState := OPEN |}.

Inductive log_context :=
| LogPlain
| LogData (data : frame)
| LogMsg (msg : value)
| LogConf (oldConf : option loc) (newConf : loc).

Record log_entry := {
  log_via : nat;
  log_payload : log_context;
  log_text : string
}.

(** Objects live in [heap]; [outbox] collects the frames handed to the
    transport, [events] what was emitted, [journal] what was logged, and
    [phrases]/[drawn] stand for the correlation-token generator
    ([@app/lib/randomphrase], not part of the sources): its [n]-th call
    returns [phrases n]. *)
Record World := {
  this : Client;
  heap : gmap loc value;
  outbox : list frame;
  events : list (string * loc);
  journal : list log_entry;
  phrases : nat → string;
  drawn : nat
}.

Definition with_this (c : Client) (w : World) : World :=
  {| this := c; heap := heap w; outbox := outbox w; events := events w;
     journal := journal w; phrases := phrases w; drawn := drawn w |}.

Definition with_heap (h : gmap loc value) (w : World) : World :=
  {| this := this w; heap := h; outbox := outbox w; events := events w;
     journal := journal w; phrases := phrases w; drawn := drawn w |}.

Definition with_outbox (o : list frame) (w : World) : World :=
  {| this := this w; heap := heap w; outbox := o; events := events w;
     journal := journal w; phrases := phrases w; drawn := drawn w |}.

Definition with_events (e : list (string * loc)) (w : World) : World :=
  {| this := this w; heap := heap w; outbox := outbox w; events := e;
     journal := journal w; phrases := phrases w; drawn := drawn w |}.

Definition with_journal (j : list log_entry) (w : World) : World :=
  {| this := this w; heap := heap w; outbox := outbox w; events := events w;
     journal := j; phrases := phrases w; drawn := drawn w |}.

(** The document the session currently holds. *)
Definition snapshot (w : World) : option value :=
  l ← _appConfig (this w); heap w !! l.

(** Modelled from the spec: the correlation-token generator
    ([@app/lib/randomphrase], absent from the sources) produces strings; the
    world supplies them one after the other. *)
Definition randomPhrase (w : World) : string * World :=
  (phrases w (drawn w),
   {| this := this w; heap := heap w; outbox := outbox w; events := events w;
      journal := journal w; phrases := phrases w; drawn := S (drawn w) |}).

(** [this._logger.push(ctx).log(text)] *)
Definition log (ctx : log_context) (text : string) (w : World) : World :=
  with_journal (journal w ++
    [{| log_via := _logger (this w); log_payload := ctx; log_text := text |}]) w.

(** ** Builders *)

(** [buildMsg(verb, msg, data, id = randomPhrase())]: the default is taken
    exactly when [id] is [undefined]. *)
Definition buildMsg (verb msg : string) (data : option value)
    (id : option value) (w : World) : frame * World :=
  let '(id', w') :=
    match id with
    | Some i => (i, w)
    | None => let '(s, w') := randomPhrase w in (VStr s, w')
    end in
  (serialise (object_of [("verb", Some (VStr verb)); ("msg", Some (VStr msg));
                         ("data", data); ("id", Some id')]%string), w').

Definition buildPatchConfiguration (oldConf newConf : value)
    (id : option value) (w : World) : frame * World :=
  let patches := Patch.compare oldConf newConf in
  buildMsg VERB.PATCH MESSAGE.CONFIGURATION
           (Some (Patch.value_of_patch patches)) id w.

Module build.
Module Codes := ERROR.
Module CONFIGURATION.
Definition PATCH := buildPatchConfiguration.
Definition READ (id : option value) :=
  buildMsg VERB.READ MESSAGE.CONFIGURATION (Some (VObj ∅)) id.
Definition NOTIFY (config : option value) (id : option value) :=
  buildMsg VERB.NOTIFY MESSAGE.CONFIGURATION config id.
End CONFIGURATION.
Module ERROR.
Module NOTIFY.
Definition UNSUPPORTED_MESSAGE (id : option value) :=
  buildMsg VERB.NOTIFY MESSAGE.ERROR (Some (VStr Codes.UNSUPPORTED_MESSAGE)) id.
Definition UNSUPPORTED_VERB (id : option value) :=
  buildMsg VERB.NOTIFY MESSAGE.ERROR (Some (VStr Codes.UNSUPPORTED_VERB)) id.
Definition JSON_PARSE_ERROR (id : option value) :=
  buildMsg VERB.NOTIFY MESSAGE.ERROR (Some (VStr Codes.JSON_PARSE_ERROR)) id.
End NOTIFY.
End ERROR.
End build.

(** Every way of calling a builder of [build]. *)
Inductive builder_call :=
| Build_CONFIGURATION_PATCH (oldConf newConf : value)
| Build_CONFIGURATION_READ
| Build_CONFIGURATION_NOTIFY (config : option value)
| Build_ERROR_NOTIFY_UNSUPPORTED_MESSAGE
| Build_ERROR_NOTIFY_UNSUPPORTED_VERB
| Build_ERROR_NOTIFY_JSON_PARSE_ERROR.

Definition run_builder (b : builder_call) (id : option value) (w : World)
    : frame * World :=
  match b with
  | Build_CONFIGURATION_PATCH o n => build.CONFIGURATION.PATCH o n id w
  | Build_CONFIGURATION_READ => build.CONFIGURATION.READ id w
  | Build_CONFIGURATION_NOTIFY c => build.CONFIGURATION.NOTIFY c id w
  | Build_ERROR_NOTIFY_UNSUPPORTED_MESSAGE => build.ERROR.NOTIFY.UNSUPPORTED_MESSAGE id w
  | Build_ERROR_NOTIFY_UNSUPPORTED_VERB => build.ERROR.NOTIFY.UNSUPPORTED_VERB id w
  | Build_ERROR_NOTIFY_JSON_PARSE_ERROR => build.ERROR.NOTIFY.JSON_PARSE_ERROR id w
  end.

(** ** The control client *)

Inductive jsError := SyntaxError | TypeError | JsonPatchError | AssertionError.

(** How a call ends: it returns ([undefined], or the [Error] object carrying
    the given message), or it throws. *)
Inductive completion :=
| Return (err : option string)
| Throw (e : jsError).

(** Result of reading a property. *)
Inductive property :=
| Raises
| Reads (v : option value).

(** [v.k] for the property names the client reads ([msg], [verb], [data],
    [id]); only objects carry them, and reading from [null] throws. *)
Definition get_property (v : value) (k : string) : property :=
  match v with
  | VNull => Raises
  | VObj m => Reads (m !! k)
  | _ => Reads None
  end.

(** A listener registered on the client, called with the emitted argument. *)
Definition listener := loc → World → World.

(** The listeners registered for [event], called in registration order. *)
Definition run_listeners (on : list (string * listener)) (event : string)
    (arg : loc) (w : World) : World :=
  foldl (fun w l => if decide (l.1 = event) then l.2 arg w else w) w on.

(** [msg.k], [undefined] included, for a message that is not [null]. *)
Definition field (msg : value) (k : string) : option value :=
  match get_property msg k with
  | Reads v => v
  | Raises => None
  end.

(** A decoded [CONFIGURATION]/[PATCH] message whose [data] is the patch set
    [ps]. *)
Definition is_patch_message (msg : value) (ps : list Patch.operation) : Prop :=
  msg ≠ VNull ∧
  field msg "msg" = Some (VStr MESSAGE.CONFIGURATION) ∧
  field msg "verb" = Some (VStr VERB.PATCH) ∧
  field msg "data" ≫= Patch.patch_of_value = Some ps.

(** The frame of a message with all four members present. *)
Definition wire_message (verb msg : string) (data id : json) : frame :=
  JsonText (JObject {[ "verb" := JString verb; "msg" := JString msg;
                       "data" := data; "id" := id ]}%string).

(** [map] with the position of each element. *)
Fixpoint map_indexed {A B} (f : nat → A → B) (i : nat) (l : list A) : list B :=
  match l with
  | [] => []
  | x :: l' => f i x :: map_indexed f (S i) l'
  end.

(** The members of an object under construction, once each of them has been
    produced; [None] when producing one of them raised. *)
Definition collect {A} (m : gmap string (option A)) : option (gmap string A) :=
  if map_fold (fun _ o acc => bool_decide (is_Some o) && acc) true m
  then Some (omap id m) else None.

(** [ToPrimitive] raises a [TypeError] on this value.  An object read from
    JSON text has an own [toString] member only as data, never as a function:
    the conversion then finds no method that returns a primitive.  An array
    is joined from the strings of its elements and raises when one of them
    does.  (An object without that member prints as [[object Object]], a
    [Buffer] as its text.) *)
Fixpoint unprintable (v : value) : bool :=
  match v with
  | VObj m => bool_decide (is_Some (m !! "toString"%string))
  | VArr l => existsb unprintable l
  | _ => false
  end.

Section ControlClient.

(** [ToNumber] on the text of a string, of a printable array or of a
    [Buffer], which typed-array stores apply to such elements when a [Buffer]
    is built from an array; its text-to-number rules are the platform's and
    stay abstract. *)
Variable ToNumber_text : value → Z.

(** The octet a typed-array store makes of an element: [ToNumber], then
    reduction modulo 256.  [None] when [ToNumber] raises a [TypeError]; a
    printable object converts to [NaN] and is stored as [0]. *)
Definition ToUint8 (v : value) : option Z :=
  match v with
  | VNum n => Some (`n mod 256)
  | VBool b => Some (if b then 1 else 0)
  | VNull => Some 0
  | VObj _ => if unprintable v then None else Some 0
  | VArr _ => if unprintable v then None else Some (ToNumber_text v mod 256)
  | VStr _ | VBuffer _ => Some (ToNumber_text v mod 256)
  end%Z.

(** [new Buffer(array)]: [None] when storing an element raises. *)
Definition Buffer_from (data : list value) : option (list Z) := mapM ToUint8 data.

(** The reviver of [deserialise]; [None] when [new Buffer(v.data)] raises. *)
Definition reviver (k : string) (v : value) : option value :=
  match v with
  | VObj m =>
      match m !! "type"%string, m !! "data"%string with
      | Some (VStr t), Some (VArr data) =>
          if decide (t = "Buffer"%string) then VBuffer <$> Buffer_from data
          else Some v
      | _, _ => Some v
      end
  | _ => Some v
  end.

(** [JSON.parse(text, reviver)]: members first, then the value that holds
    them, each under its own key; the root under the empty key.  An
    exception of the reviver, wherever it is raised, leaves [JSON.parse]. *)
Fixpoint revive (k : string) (j : json) {struct j} : option value :=
  match j with
  | JNull => reviver k VNull
  | JBool b => reviver k (VBool b)
  | JNumber n => reviver k (VNum n)
  | JString s => reviver k (VStr s)
  | JArray l =>
      l' ← mapM id (map_indexed (fun i x => revive (Patch.show_index i) x) 0 l);
      reviver k (VArr l')
  | JObject m =>
      m' ← collect (map_imap (fun k' x => Some (revive k' x)) m);
      reviver k (VObj m')
  end.

(** [deserialise]: [None] when [JSON.parse] throws, on text that is not JSON
    or out of the reviver. *)
Definition deserialise (msg : frame) : option value :=
  match msg with
  | Garbled _ => None
  | JsonText j => revive "" j
  end.

(** [send]: the frame is logged, then handed to the transport, which takes
    it only while the socket is open. *)
Definition send (msg : frame) (w : World) : World :=
  let w := log (LogData msg) "Sending message" w in
  match readyState (this w) with
  | OPEN => with_outbox (outbox w ++ [msg]) w
  | _ => w
  end.

(** [receive]: what the one-shot [message] listener does with an arriving
    frame. *)
Definition receive (data : frame) (w : World) : World * option value :=
  match deserialise data with
  | Some msg => (log (LogMsg msg) "Received" w, Some msg)
  | None => (w, None)
  end.

(** [stop] *)
Definition stop (w : World) : World :=
  let w := log LogPlain "Control client shutting down..." w in
  let c := this w in
  with_this {| _logger := _logger c; _appConfig := _appConfig c;
               remotePort := remotePort c;
               readyState := match readyState c with
                             | CLOSED => CLOSED
                             | _ => CLOSING
                             end |} w.

(** The closure [reconfigure] returns. *)
Definition restart (logger : nat) (appConfig : option loc) (w : World) : World :=
  let c := this w in
  let w := with_this {| _logger := logger; _appConfig := appConfig;
                        remotePort := remotePort c;
                        readyState := readyState c |} w in
  log LogPlain "restarted" w.

(** [reconfigure({ logger = this._logger, port = 0, appConfig = this._appConfig })]:
    [None] when the assertion on the port throws. *)
Definition reconfigure (logger : option nat) (port : option Z)
    (appConfig : option loc) (w : World) : option (World → World) :=
  let logger := default (_logger (this w)) logger in
  let port := default 0%Z port in
  let appConfig := match appConfig with
                   | Some l => Some l
                   | None => _appConfig (this w)
                   end in
  if decide (port = remotePort (this w)) then Some (restart logger appConfig)
  else None.

(** [this.emit(event, arg)]: the listeners registered for [event] run in
    registration order, before [emit] returns. *)
Definition emit (on : list (string * listener)) (event : string) (arg : loc)
    (w : World) : World :=
  run_listeners on event arg (with_events (events w ++ [(event, arg)]) w).

(** [_handle]: handle an incoming message from the server.  On a PATCH the
    configuration held is copied into the fresh object [dup], the patch is
    applied to [dup] in place, and [dup] is emitted; an exception of
    [JSON.parse], of a property read or of [applyPatch] is not caught beyond
    the first [try] and leaves the call. *)
Definition _handle (on : list (string * listener)) (data : frame) (w : World)
    : World * completion :=
  match deserialise data with
  | None =>
      let w := log (LogData data) "Couldn't parse received message" w in
      let '(reply, w) := build.ERROR.NOTIFY.JSON_PARSE_ERROR None w in
      (send reply w, Return (Some "Couldn't parse received message"%string))
  | Some msg =>
      let w := log (LogMsg msg) "Handling received message" w in
      match get_property msg "msg" with
      | Raises => (w, Throw TypeError)
      | Reads kind =>
          if decide (kind = Some (VStr MESSAGE.CONFIGURATION)) then
            let verb := field msg "verb" in
            if decide (verb = Some (VStr VERB.NOTIFY)) then (w, Return None)
            else if decide (verb = Some (VStr VERB.PATCH)) then
              match snapshot w with
              | None => (w, Throw SyntaxError)
              | Some conf =>
                  let dup := fresh (dom (heap w)) in
                  let copy := parse (toJSON conf) in
                  let w := with_heap (<[dup:=copy]> (heap w)) w in
                  match field msg "data" ≫= Patch.patch_of_value with
                  | None => (w, Throw TypeError)
                  | Some patch =>
                      let '(obj, result) := Patch.applyPatch copy patch in
                      let w := with_heap (<[dup:=obj]> (heap w)) w in
                      match result with
                      | None => (w, Throw JsonPatchError)
                      | Some _ =>
                          let w := log (LogConf (_appConfig (this w)) dup)
                                       "Emitting new configuration" w in
                          (emit on EVENT.RECONFIGURE dup w, Return None)
                      end
                  end
              end
            else
              let '(reply, w) :=
                build.ERROR.NOTIFY.UNSUPPORTED_VERB (field msg "id") w in
              (send reply w, Return None)
          else
            let '(reply, w) :=
              build.ERROR.NOTIFY.UNSUPPORTED_MESSAGE (field msg "id") w in
            (send reply w, Return None)
      end
  end.

(** The operations a client offers after construction. *)
Inductive operation_call :=
| CallSend (msg : frame)
| CallReceive (data : frame)
| CallStop
| CallReconfigure (logger : option nat) (port : option Z) (appConfig : option loc)
| CallRestart (logger : nat) (appConfig : option loc)
| CallHandle (data : frame).

Definition perform (on : list (string * listener)) (c : operation_call)
    (w : World) : World :=
  match c with
  | CallSend msg => send msg w
  | CallReceive data => (receive data w).1
  | CallStop => stop w
  | CallReconfigure _ _ _ => w
  | CallRestart logger appConfig => restart logger appConfig w
  | CallHandle data => (_handle on data w).1
  end.

(** A [RECONFIGURE] listener that installs the emitted document through
    [reconfigure] and calls the closure at once. *)
Definition install : listener := fun dup w =>
  match reconfigure None (Some (remotePort (this w))) (Some dup) w with
  | Some k => k w
  | None => w
  end.

(** A listener touches neither the client's fields nor any object that
    existed when it was called. *)
Definition passive (l : listener) : Prop :=
  ∀ arg w, this (l arg w) = this w ∧
           ∀ x v, heap w !! x = Some v → heap (l arg w) !! x = Some v.

End ControlClient.

(** ** Values on the wire *)

Fixpoint json_size (j : json) : nat :=
  match j with
  | JArray l => S (foldr (fun x acc => json_size x + acc) 0 l)
  | JObject m => S (map_fold (fun _ x acc => json_size x + acc) 0 m)
  | _ => 1
  end.

(** The shape the reviver of [deserialise] looks for. *)
Definition tagged (m : gmap string value) : bool :=
  match m !! "type"%string, m !! "data"%string with
  | Some (VStr t), Some (VArr _) => bool_decide (t = "Buffer"%string)
  | _, _ => false
  end.

(** No plain object of the tagged shape anywhere inside. *)
Fixpoint tag_free (v : value) : bool :=
  match v with
  | VArr l => foldr (fun x acc => tag_free x && acc) true l
  | VObj m => negb (tagged m) && map_fold (fun _ x acc => tag_free x && acc) true m
  | _ => true
  end.

Definition octet (b : Z) : bool := (0 <=? b)%Z && (b <? 256)%Z.

(** Every [Buffer] inside holds octets. *)
Fixpoint octets (v : value) : bool :=
  match v with
  | VArr l => foldr (fun x acc => octets x && acc) true l
  | VObj m => map_fold (fun _ x acc => octets x && acc) true m
  | VBuffer bytes => forallb octet bytes
  | _ => true
  end.

(** A value that [JSON.stringify] followed by [deserialise] gives back. *)
Definition wire_stable (v : value) : bool := tag_free v && octets v.


(** The value an operation carries, if any, survives the wire. *)
Definition carries_stable (o : Patch.operation) : bool :=
  match o with
  | Patch.OpAdd _ v | Patch.OpReplace _ v | Patch.OpTest _ v => wire_stable v
  | _ => true
  end.

(** ** Sample sessions and frames

    A session that holds [{"a":1}], frames produced by the builders, and a
    listener that records the document the session holds when it runs. *)
Module Sample.
Definition ToNumber_text : value → Z := fun _ => 0%Z.
Definition doc_a1 : value := VObj {[ "a"%string := VNum (int 1) ]}.
Definition doc_a2 : value := VObj {[ "a"%string := VNum (int 2) ]}.
Definition doc_a2b : value :=
  VObj {[ "a"%string := VNum (int 2); "b"%string := VBool true ]}.
Definition doc_a1b : value :=
  VObj {[ "a"%string := VNum (int 1); "b"%string := VBool true ]}.
Definition session : World :=
  {| this := Create 4003 0 (Some 1%positive);
     heap := {[ 1%positive := doc_a1 ]};
     outbox := []; events := []; journal := [];
     phrases := fun n => ("phrase " +:+ Patch.show_index n)%string;
     drawn := 0 |}.
Definition patch_frame (old new : value) (id : string) : frame :=
  (build.CONFIGURATION.PATCH old new (Some (VStr id)) session).1.
Definition raw_patch_frame (ps : list Patch.operation) (id : string) : frame :=
  (buildMsg VERB.PATCH MESSAGE.CONFIGURATION
     (Some (Patch.value_of_patch ps)) (Some (VStr id)) session).1.
Definition read_frame (id : string) : frame :=
  (build.CONFIGURATION.READ (Some (VStr id)) session).1.
Definition other_frame (id : string) : frame :=
  (buildMsg VERB.READ "UNKNOWN_KIND" None (Some (VStr id)) session).1.
Definition decoded (f : frame) : value :=
  default VNull (deserialise ToNumber_text f).
Definition probe : listener := fun dup w =>
  log (LogMsg (default VNull (snapshot w))) "observed" w.
End Sample.

(** More sample sessions: one without a configuration, one whose
    configuration holds a [Buffer]. *)
Module MoreSamples.
Definition blank_session : World :=
  {| this := Create 4003 0 None; heap := ∅;
     outbox := []; events := []; journal := [];
     phrases := fun n => ("phrase " +:+ Patch.show_index n)%string;
     drawn := 0 |}.
Definition doc_key : value :=
  VObj {[ "key"%string := VBuffer [1; 2; 3]%Z; "port"%string := VNum (int 4003) ]}.
Definition tagged_frame : frame :=
  JsonText (JObject {[ "msg"%string := JString MESSAGE.CONFIGURATION;
                       "verb"%string := JString VERB.NOTIFY;
                       "id"%string := JString "id-7";
                       "type"%string := JString "Buffer";
                       "data"%string := JArray [JNumber (int 300); JNull] ]}).
End MoreSamples.

(** Evaluate both sides on a concrete session. *)
Ltac run := vm_compute; try reflexivity; try discriminate; try congruence.

Ltac patch_message := split_and!; run.

(** * Facts about JSON Patch *)
Import Patch.

Lemma to_uint_nonnil n : Nat.to_uint n ≠ Decimal.Nil.
Proof.
  rewrite <- (DecimalNat.Unsigned.of_to n) at 1.
  rewrite DecimalNat.Unsigned.to_of. unfold Decimal.unorm.
  destruct (Decimal.nzhead _); discriminate.
Qed.

Lemma parse_show_index i : parse_index (show_index i) = Some i.
Proof.
  unfold parse_index, show_index.
  rewrite NilZero.usu by apply to_uint_nonnil.
  simpl. by rewrite DecimalNat.Unsigned.of_to.
Qed.

Lemma show_index_not_dash i : show_index i ≠ "-"%string.
Proof.
  intros H. pose proof (parse_show_index i) as Hp. rewrite H in Hp. discriminate.
Qed.

Lemma value_size_member (m : gmap string value) k v :
  m !! k = Some v → value_size v < value_size (VObj m).
Proof.
  intros Hk. simpl. rewrite map_fold_foldr.
  apply elem_of_map_to_list in Hk.
  induction (map_to_list m) as [|[k' v'] L IH]; [by apply elem_of_nil in Hk|].
  apply elem_of_cons in Hk as [Heq | Hin]; simpl.
  - inversion Heq; subst. lia.
  - specialize (IH Hin). lia.
Qed.

Lemma value_size_element (l : list value) x :
  x ∈ l → value_size x < value_size (VArr l).
Proof.
  intros Hx. simpl.
  induction l as [|y l IH]; [by apply elem_of_nil in Hx|].
  apply elem_of_cons in Hx as [-> | Hin]; simpl; [lia|].
  specialize (IH Hin). lia.
Qed.

Lemma get_app d p q : get d (p ++ q) = c ← get d p; get c q.
Proof.
  revert d. induction p as [|k p IH]; intros d; simpl; [done|].
  destruct (child d k) as [c|]; simpl; [apply IH | done].
Qed.

Lemma at_parent_cons f d k p :
  p ≠ [] →
  at_parent f d (k :: p) = c ← child d k; c' ← at_parent f c p; set_child c' d k.
Proof. by destruct p. Qed.

Lemma replace_cons d k p v :
  replace d (k :: p) v = c ← child d k; c' ← replace c p v; set_child c' d k.
Proof.
  unfold replace. destruct p as [|k' p]; simpl.
  - destruct d as [| | | |l|m|]; simpl; try done.
    + destruct (parse_index k) as [i|]; simpl; [|done].
      destruct (l !! i) eqn:Hl; simpl.
      * apply lookup_lt_Some in Hl. by rewrite decide_True.
      * apply lookup_ge_None in Hl. rewrite decide_False; [done|lia].
    + by destruct (m !! k).
  - done.
Qed.

(** An edit below [p] rewrites the subdocument at [p]. *)
Lemma at_parent_app f root p q c c' :
  q ≠ [] → get root p = Some c → at_parent f c q = Some c' →
  at_parent f root (p ++ q) = replace root p c'.
Proof.
  intros Hq. revert root. induction p as [|k p IH]; intros root Hget Hf; simpl in Hget.
  - by simplify_eq.
  - destruct (child root k) as [c0|] eqn:Hc; simpl in Hget; [|done].
    change ((k :: p) ++ q) with (k :: (p ++ q)).
    rewrite at_parent_cons, replace_cons by (by destruct p, q).
    rewrite Hc. simpl. by rewrite (IH c0).
Qed.

Lemma set_child_spec v d k c :
  child d k = Some c →
  ∃ d', set_child v d k = Some d' ∧ child d' k = Some v ∧
        ∀ v', set_child v' d' k = set_child v' d k.
Proof.
  destruct d as [| | | |l|m|]; simpl; try done.
  - destruct (parse_index k) as [i|] eqn:Hi; simpl; [|done]. intros Hl.
    apply lookup_lt_Some in Hl. rewrite decide_True by done.
    eexists; split; [done|]. split.
    + simpl. rewrite Hi. simpl. by rewrite list_lookup_insert_eq.
    + intros v'. simpl. rewrite Hi. simpl.
      rewrite length_insert, !decide_True by done.
      by rewrite list_insert_insert_eq.
  - intros Hm. rewrite Hm. eexists; split; [done|]. split.
    + simpl. by rewrite lookup_insert_eq.
    + intros v'. simpl. rewrite lookup_insert_eq. by rewrite insert_insert_eq.
Qed.

Lemma replace_spec root p c v :
  get root p = Some c →
  ∃ root', replace root p v = Some root' ∧ get root' p = Some v ∧
           ∀ v', replace root' p v' = replace root p v'.
Proof.
  revert root. induction p as [|k p IH]; intros root Hget.
  - exists v. by simpl.
  - simpl in Hget. destruct (child root k) as [c0|] eqn:Hc; simpl in Hget; [|done].
    destruct (IH c0 Hget) as (c0' & Hr & Hg & Hagain).
    destruct (set_child_spec c0' root k c0 Hc) as (root' & Hs & Hch & Hs').
    exists root'. split_and!.
    + rewrite replace_cons, Hc. simpl. by rewrite Hr.
    + simpl. by rewrite Hch.
    + intros v'. rewrite !replace_cons, Hc, Hch. simpl. rewrite Hagain.
      destruct (replace c0 p v'); simpl; [apply Hs' | done].
Qed.

Lemma set_child_same d k c : child d k = Some c → set_child c d k = Some d.
Proof.
  destruct d as [| | | |l|m|]; simpl; try done.
  - destruct (parse_index k) as [i|]; simpl; [|done]. intros Hl.
    rewrite decide_True by (by eapply lookup_lt_Some).
    by rewrite list_insert_id.
  - intros Hm. rewrite Hm. by rewrite insert_id.
Qed.

Lemma replace_same root p c : get root p = Some c → replace root p c = Some root.
Proof.
  revert root. induction p as [|k p IH]; intros root Hget; simpl in Hget.
  - by simplify_eq.
  - destruct (child root k) as [c0|] eqn:Hc; simpl in Hget; [|done].
    rewrite replace_cons, Hc. simpl. rewrite (IH c0 Hget). simpl.
    by apply set_child_same.
Qed.

Lemma apply_ops_app d ps qs :
  apply_ops d (ps ++ qs) = d' ← apply_ops d ps; apply_ops d' qs.
Proof.
  revert d. induction ps as [|o ps IH]; intros d; simpl; [done|].
  destruct (apply_op d o); simpl; [apply IH | done].
Qed.

Lemma add_snoc d p k v : add d (p ++ [k]) v = at_parent (add_child v) d (p ++ [k]).
Proof. unfold add. by destruct p. Qed.

Lemma replace_snoc d p k v :
  replace d (p ++ [k]) v = at_parent (set_child v) d (p ++ [k]).
Proof. unfold replace. by destruct p. Qed.

Lemma replace_member root p m k v1 v2 :
  get root p = Some (VObj m) → m !! k = Some v1 →
  replace root (p ++ [k]) v2 = replace root p (VObj (<[k:=v2]> m)).
Proof.
  intros Hg Hk. rewrite replace_snoc.
  apply (at_parent_app _ _ _ _ (VObj m)); [done|done|]. simpl. by rewrite Hk.
Qed.

Lemma remove_member root p m k v1 :
  get root p = Some (VObj m) → m !! k = Some v1 →
  apply_op root (OpRemove (p ++ [k])) = replace root p (VObj (delete k m)).
Proof.
  intros Hg Hk. simpl. unfold remove.
  apply (at_parent_app _ _ _ _ (VObj m)); [done|done|]. simpl. by rewrite Hk.
Qed.

Lemma add_member root p m k v :
  get root p = Some (VObj m) →
  apply_op root (OpAdd (p ++ [k]) v) = replace root p (VObj (<[k:=v]> m)).
Proof.
  intros Hg. simpl. rewrite add_snoc.
  by apply (at_parent_app _ _ _ _ (VObj m)).
Qed.

Lemma replace_element root p pre x tl y :
  get root p = Some (VArr (pre ++ x :: tl)) →
  replace root (p ++ [show_index (length pre)]) y
  = replace root p (VArr (pre ++ y :: tl)).
Proof.
  intros Hg. rewrite replace_snoc.
  apply (at_parent_app _ _ _ _ (VArr (pre ++ x :: tl))); [done|done|].
  simpl. rewrite parse_show_index. simpl.
  rewrite decide_True by (rewrite length_app; simpl; lia).
  by rewrite insert_app_r_alt, Nat.sub_diag by lia.
Qed.

Lemma remove_last root p l z :
  get root p = Some (VArr (l ++ [z])) →
  apply_op root (OpRemove (p ++ [show_index (length l)])) = replace root p (VArr l).
Proof.
  intros Hg. simpl. unfold remove.
  apply (at_parent_app _ _ _ _ (VArr (l ++ [z]))); [done|done|].
  simpl. rewrite parse_show_index. simpl.
  rewrite decide_True by (rewrite length_app; simpl; lia).
  do 2 f_equal. clear Hg. induction l as [|a l IH]; simpl; [done|]. by f_equal.
Qed.

Lemma add_last root p l y :
  get root p = Some (VArr l) →
  apply_op root (OpAdd (p ++ [show_index (length l)]) y)
  = replace root p (VArr (l ++ [y])).
Proof.
  intros Hg. simpl. rewrite add_snoc.
  apply (at_parent_app _ _ _ _ (VArr l)); [done|done|].
  simpl. rewrite decide_False by apply show_index_not_dash.
  rewrite parse_show_index. simpl. rewrite decide_True by done.
  by rewrite take_ge, drop_ge by done.
Qed.

(** Chaining edits that all rewrite the subdocument at [p]. *)
Lemma apply_ops_chain root p c ops c' rest c'' :
  get root p = Some c →
  apply_ops root ops = replace root p c' →
  (∀ root', get root' p = Some c' → apply_ops root' rest = replace root' p c'') →
  apply_ops root (ops ++ rest) = replace root p c''.
Proof.
  intros Hg Hops Hrest. rewrite apply_ops_app, Hops.
  destruct (replace_spec root p c c' Hg) as (root' & -> & Hg' & Hagain). simpl.
  rewrite (Hrest root' Hg'). apply Hagain.
Qed.

Lemma apply_ops_single d o : apply_ops d [o] = apply_op d o.
Proof. simpl. by destruct (apply_op d o). Qed.

Lemma apply_ops_chain1 root p c o c' rest c'' :
  get root p = Some c →
  apply_op root o = replace root p c' →
  (∀ root', get root' p = Some c' → apply_ops root' rest = replace root' p c'') →
  apply_ops root (o :: rest) = replace root p c''.
Proof.
  intros Hg Hop Hrest. apply (apply_ops_chain root p c [o] c' rest c''); [done| |done].
  by rewrite apply_ops_single.
Qed.


Lemma removes_correct p n : ∀ pre tl root,
  length tl = n → get root p = Some (VArr (pre ++ tl)) →
  apply_ops root ((fun j => OpRemove (p ++ [show_index j]))
                    <$> reverse (seq (length pre) n))
  = replace root p (VArr pre).
Proof.
  induction n as [|n IH]; intros pre tl root Hlen Hg.
  - destruct tl; [|done]. rewrite app_nil_r in Hg. simpl.
    symmetry. by apply replace_same.
  - destruct (decide (tl = [])) as [->|Hne]; [done|].
    destruct (exists_last Hne) as (tl' & z & ->).
    rewrite length_app in Hlen. simpl in Hlen.
    rewrite seq_S, reverse_snoc, fmap_cons.
    apply (apply_ops_chain1 _ _ (VArr (pre ++ tl' ++ [z])) _ (VArr (pre ++ tl')));
      [done| |].
    + replace (length pre + n) with (length (pre ++ tl')) by (rewrite length_app; lia).
      apply (remove_last _ _ _ z). by rewrite <- app_assoc.
    + intros root' Hg'. apply (IH pre tl'); [lia | done].
Qed.

Lemma adds_correct p l2 : ∀ pre root,
  get root p = Some (VArr pre) →
  apply_ops root (imap (fun j y => OpAdd (p ++ [show_index (length pre + j)]) y) l2)
  = replace root p (VArr (pre ++ l2)).
Proof.
  induction l2 as [|y l2 IH]; intros pre root Hg.
  - rewrite app_nil_r. simpl. symmetry. by apply replace_same.
  - rewrite imap_cons.
    apply (apply_ops_chain1 _ _ (VArr pre) _ (VArr (pre ++ [y]))); [done| |].
    + rewrite Nat.add_0_r. by apply add_last.
    + intros root' Hg'. rewrite (cons_middle y pre l2), app_assoc.
      rewrite <- (IH (pre ++ [y]) root' Hg'). f_equal.
      apply imap_ext. intros j z _. simpl. rewrite length_app. simpl.
      by replace (length pre + 1 + j) with (length pre + S j) by lia.
Qed.

Lemma diff_elements_correct D p l1 :
  (∀ x, x ∈ l1 → correct_on D x) →
  ∀ l2 pre root, get root p = Some (VArr (pre ++ l1)) →
    apply_ops root (diff_elements D p (length pre) l1 l2)
    = replace root p (VArr (pre ++ l2)).
Proof.
  induction l1 as [|x l1 IH]; intros HD l2 pre root Hg.
  - simpl. rewrite app_nil_r in Hg. by apply adds_correct.
  - destruct l2 as [|y l2].
    + rewrite app_nil_r. by apply (removes_correct p _ pre (x :: l1)).
    + simpl.
      apply (apply_ops_chain _ _ (VArr (pre ++ x :: l1)) _ (VArr (pre ++ y :: l1)));
        [done| |].
      * rewrite (HD x); [by apply (replace_element _ _ _ x) | by left |].
        rewrite get_app, Hg. simpl. rewrite parse_show_index. simpl.
        by rewrite list_lookup_middle.
      * intros root' Hg'. rewrite (cons_middle y pre l2), app_assoc.
        replace (S (length pre)) with (length (pre ++ [y]))
          by (rewrite length_app; simpl; lia).
        apply IH.
        -- intros x' Hx'. apply HD. by right.
        -- by rewrite <- app_assoc.
Qed.



Lemma updated_cons m2 k0 v0 L mc :
  updated m2 ((k0, v0) :: L) mc
  = updated m2 L (match m2 !! k0 with
                  | Some v2 => <[k0:=v2]> mc
                  | None => delete k0 mc
                  end).
Proof. done. Qed.

Lemma added_cons m1 k0 v0 L mc :
  added m1 ((k0, v0) :: L) mc
  = added m1 L (match m1 !! k0 with
                | None => <[k0:=v0]> mc
                | Some _ => mc
                end).
Proof. done. Qed.

Lemma lookup_updated (m2 : gmap string value) L : ∀ mc k,
  updated m2 L mc !! k = if decide (k ∈ L.*1) then m2 !! k else mc !! k.
Proof.
  induction L as [|[k0 v0] L IH]; intros mc k.
  - done.
  - rewrite updated_cons, IH, fmap_cons. cbn [fst].
    destruct (decide (k ∈ L.*1)) as [Hin|Hnin].
    + rewrite decide_True; [done | by right].
    + destruct (decide (k = k0)) as [->|Hne].
      * rewrite decide_True by left.
        destruct (m2 !! k0); by rewrite ?lookup_insert_eq, ?lookup_delete_eq.
      * rewrite decide_False by (intros [?|?]%elem_of_cons; done).
        destruct (m2 !! k0); by rewrite ?lookup_insert_ne, ?lookup_delete_ne.
Qed.

Lemma lookup_added (m1 m2 : gmap string value) L : ∀ mc k,
  (∀ k' v, (k', v) ∈ L → m2 !! k' = Some v) →
  added m1 L mc !! k
  = if decide (k ∈ L.*1 ∧ m1 !! k = None) then m2 !! k else mc !! k.
Proof.
  induction L as [|[k0 v0] L IH]; intros mc k HL.
  - rewrite decide_False; [done|]. intros [[]%elem_of_nil _].
  - rewrite added_cons, IH, fmap_cons by (intros ???; apply HL; by right).
    cbn [fst].
    destruct (decide (k ∈ L.*1 ∧ m1 !! k = None)) as [[Hin Hn]|Hnin].
    + rewrite decide_True; [done|]. split; [by right | done].
    + destruct (decide (k = k0)) as [->|Hne].
      * destruct (m1 !! k0) eqn:Hk0.
        -- rewrite decide_False; [done | by intros [_ ?]].
        -- rewrite decide_True by (split; [left | done]).
           rewrite lookup_insert_eq. symmetry. apply HL. left.
      * rewrite decide_False.
        -- destruct (m1 !! k0); by rewrite ?lookup_insert_ne.
        -- intros [[?|?]%elem_of_cons ?]; [done|]. apply Hnin. done.
Qed.

Lemma members_phase1 D p m2 L : ∀ mc root,
  NoDup L.*1 →
  (∀ k v, (k, v) ∈ L → mc !! k = Some v ∧ correct_on D v) →
  get root p = Some (VObj mc) →
  apply_ops root
    (foldr (uncurry (fun k v1 acc =>
                       match m2 !! k with
                       | Some v2 => D (p ++ [k]) v1 v2
                       | None => [OpRemove (p ++ [k])]
                       end ++ acc)) [] L)
  = replace root p (VObj (updated m2 L mc)).
Proof.
  induction L as [|[k v1] L IH]; intros mc root Hnd HL Hg.
  - simpl. symmetry. by apply replace_same.
  - rewrite fmap_cons in Hnd. cbn [fst] in Hnd.
    apply list.NoDup_cons in Hnd as [Hk Hnd].
    destruct (HL k v1) as [Hmk HD]; [left|].
    assert (Hrest : ∀ mc', (∀ k', k' ≠ k → mc' !! k' = mc !! k') →
              ∀ root', get root' p = Some (VObj mc') →
              apply_ops root' (foldr (uncurry (fun k v1 acc =>
                       match m2 !! k with
                       | Some v2 => D (p ++ [k]) v1 v2
                       | None => [OpRemove (p ++ [k])]
                       end ++ acc)) [] L)
              = replace root' p (VObj (updated m2 L mc'))).
    { intros mc' Hmc' root' Hg'. apply IH; [done| |done].
      intros k' v' Hin. destruct (HL k' v') as [? ?]; [by right|].
      split; [|done]. rewrite Hmc'; [done|].
      intros ->. apply Hk. apply list_elem_of_fmap. by exists (k, v'). }
    rewrite updated_cons. cbn [foldr uncurry].
    destruct (m2 !! k) as [v2|] eqn:Hm2.
    + apply (apply_ops_chain _ _ (VObj mc) _ (VObj (<[k:=v2]> mc))); [done| |].
      * rewrite HD; [by apply (replace_member _ _ _ _ v1)|].
        rewrite get_app, Hg. simpl. by rewrite Hmk.
      * apply Hrest. intros k' Hne. by rewrite lookup_insert_ne.
    + apply (apply_ops_chain1 _ _ (VObj mc) _ (VObj (delete k mc))); [done| |].
      * by apply (remove_member _ _ _ _ v1).
      * apply Hrest. intros k' Hne. by rewrite lookup_delete_ne.
Qed.

Lemma members_phase2 p m1 L : ∀ mc root,
  get root p = Some (VObj mc) →
  apply_ops root
    (foldr (uncurry (fun k v2 acc =>
                       match m1 !! k with
                       | None => OpAdd (p ++ [k]) v2 :: acc
                       | Some _ => acc
                       end)) [] L)
  = replace root p (VObj (added m1 L mc)).
Proof.
  induction L as [|[k v2] L IH]; intros mc root Hg.
  - simpl. symmetry. by apply replace_same.
  - rewrite added_cons. cbn [foldr uncurry].
    destruct (m1 !! k) eqn:Hm1; [by apply IH|].
    apply (apply_ops_chain1 _ _ (VObj mc) _ (VObj (<[k:=v2]> mc))); [done| |].
    + by apply add_member.
    + intros root' Hg'. by apply IH.
Qed.

Lemma diff_members_correct D p m1 m2 root :
  (∀ k v, m1 !! k = Some v → correct_on D v) →
  get root p = Some (VObj m1) →
  apply_ops root (diff_members D p m1 m2) = replace root p (VObj m2).
Proof.
  intros HD Hg. unfold diff_members. rewrite !map_fold_foldr.
  apply (apply_ops_chain _ _ (VObj m1) _
           (VObj (updated m2 (map_to_list m1) m1))); [done| |].
  - apply members_phase1; [apply NoDup_fst_map_to_list| |done].
    intros k v Hin%elem_of_map_to_list. split; [done | by apply (HD k)].
  - intros root' Hg'.
    rewrite (members_phase2 _ _ _ (updated m2 (map_to_list m1) m1)) by done.
    do 2 f_equal.
    apply map_eq. intros k.
    rewrite (lookup_added m1 m2) by (by intros ?? ?%elem_of_map_to_list).
    rewrite lookup_updated.
    assert (Hdom : ∀ (m : gmap string value), k ∈ (map_to_list m).*1 ↔ is_Some (m !! k)).
    { intros m. rewrite list_elem_of_fmap. split.
      - intros ([k' v] & -> & Hin%elem_of_map_to_list). by exists v.
      - intros [v Hv]. exists (k, v). split; [done|]. by apply elem_of_map_to_list. }
    destruct (decide (k ∈ (map_to_list m2).*1 ∧ m1 !! k = None)) as [|Hn]; [done|].
    destruct (decide (k ∈ (map_to_list m1).*1)) as [|Hn1]; [done|].
    rewrite Hdom in Hn1. apply eq_None_not_Some in Hn1. rewrite Hn1.
    symmetry. apply eq_None_not_Some. intros Hs. apply Hn. split; [|done].
    by apply Hdom.
Qed.

Lemma leaf_correct old new p root :
  get root p = Some old →
  apply_ops root (if decide (old = new) then [] else [OpReplace p new])
  = replace root p new.
Proof.
  intros Hg. case_decide as Heq.
  - subst. simpl. symmetry. by apply replace_same.
  - by rewrite apply_ops_single.
Qed.

Lemma diff_at_correct old : correct_on (fun q a b => diff_at q a b) old.
Proof.
  remember (value_size old) as n eqn:Hn. revert old Hn.
  induction (lt_wf n) as [n _ IH]. intros old -> new p root Hg.
  destruct old as [| | | |l1|m1|], new as [| | | |l2|m2|];
    try (match goal with
         | |- apply_ops _ (diff_at _ ?a ?b) = _ => exact (leaf_correct a b p root Hg)
         end).
  - apply (diff_elements_correct _ p l1 (fun x Hx =>
             IH _ (value_size_element l1 x Hx) x eq_refl) l2 [] root Hg).
  - apply (diff_members_correct _ p m1 m2 root); [|done].
    intros k v Hk. by apply (IH _ (value_size_member m1 k v Hk)).
Qed.

Lemma diff_elements_same D p : ∀ l i,
  (∀ x q, x ∈ l → D q x x = []) → diff_elements D p i l l = [].
Proof.
  induction l as [|x l IH]; intros i HD; simpl; [done|].
  rewrite HD by left. rewrite IH; [done|]. intros y q Hy. apply HD. by right.
Qed.

Lemma diff_members_same D p (m : gmap string value) :
  (∀ k v q, m !! k = Some v → D q v v = []) → diff_members D p m m = [].
Proof.
  intros HD. unfold diff_members. rewrite !map_fold_foldr.
  assert (HL : ∀ k v, (k, v) ∈ map_to_list m → m !! k = Some v)
    by (by intros ?? ?%elem_of_map_to_list).
  revert HL. generalize (map_to_list m) as L. intros L HL.
  apply app_nil. split.
  - induction L as [|[k v] L IHL]; [done|].
    cbn [foldr uncurry]. rewrite (HL k v) by left.
    rewrite (HD k v) by (apply HL; left). simpl.
    apply IHL. intros k' v' Hin. apply HL. by right.
  - induction L as [|[k v] L IHL]; [done|].
    cbn [foldr uncurry]. rewrite (HL k v) by left.
    apply IHL. intros k' v' Hin. apply HL. by right.
Qed.

Lemma diff_at_same : ∀ old p, diff_at p old old = [].
Proof.
  intros old. remember (value_size old) as n eqn:Hn. revert old Hn.
  induction (lt_wf n) as [n _ IH]. intros old -> p.
  destruct old as [| | | |l|m|]; simpl; try done; try (by rewrite decide_True).
  - apply diff_elements_same. intros x q Hx.
    by apply (IH _ (value_size_element l x Hx)).
  - apply diff_members_same. intros k v q Hk.
    by apply (IH _ (value_size_member m k v Hk)).
Qed.

(** C5: applying the patch set computed by [compare A B] to [A] yields [B],
    and comparing a document with itself yields the empty patch set. *)
Theorem compare_roundtrip A B :
  apply_ops A (compare A B) = Some B ∧ compare A A = [].
Proof.
  split; [|apply diff_at_same].
  unfold compare. by rewrite (diff_at_correct A B [] A).
Qed.

(** * Facts about the control client *)

Lemma applyPatch_result obj ps : (applyPatch obj ps).2 = apply_ops obj ps.
Proof.
  revert obj. induction ps as [|o ps IH]; intros obj; simpl; [done|].
  destruct (apply_op obj o) as [d'|]; simpl; [|done].
  destruct (rebinds_root o); [done | apply IH].
Qed.


Lemma applyPatch_object obj ps d :
  Forall keeps_root ps → apply_ops obj ps = Some d → (applyPatch obj ps).1 = d.
Proof.
  revert obj. induction ps as [|o ps IH]; intros obj Hk Hd; simpl in *.
  - by simplify_eq.
  - apply list.Forall_cons in Hk as [Ho Hk]. unfold keeps_root in Ho.
    destruct (apply_op obj o) as [d'|]; simpl in *; [|done].
    rewrite Ho. by apply IH.
Qed.

Lemma keeps_root_snoc_remove p k : keeps_root (OpRemove (p ++ [k])).
Proof. by destruct p. Qed.
Lemma keeps_root_snoc_add p k v : keeps_root (OpAdd (p ++ [k]) v).
Proof. by destruct p. Qed.

Lemma Forall_imap_intro {A B} (P : B → Prop) (l : list A) : ∀ f : nat → A → B,
  (∀ i x, P (f i x)) → Forall P (imap f l).
Proof.
  induction l as [|x l IH]; intros f Hf; [constructor|].
  rewrite imap_cons. constructor; [apply Hf|]. apply IH. intros i y. apply Hf.
Qed.

Lemma diff_elements_keeps_root D p : ∀ l1 l2 i,
  (∀ x y q, x ∈ l1 → q ≠ [] → Forall keeps_root (D q x y)) →
  Forall keeps_root (diff_elements D p i l1 l2).
Proof.
  induction l1 as [|x l1 IH]; intros l2 i HD.
  - simpl. apply Forall_imap_intro. intros j y. apply keeps_root_snoc_add.
  - destruct l2 as [|y l2].
    + unfold diff_elements. apply Forall_fmap, Forall_forall.
      intros j _. apply keeps_root_snoc_remove.
    + simpl. apply Forall_app. split.
      * apply HD; [left | by destruct p].
      * apply IH. intros x' y' q Hx'. apply HD. by right.
Qed.

Lemma diff_members_keeps_root D p (m1 m2 : gmap string value) :
  (∀ k v1 v2 q, m1 !! k = Some v1 → q ≠ [] → Forall keeps_root (D q v1 v2)) →
  Forall keeps_root (diff_members D p m1 m2).
Proof.
  intros HD. unfold diff_members. rewrite !map_fold_foldr. apply Forall_app. split.
  - assert (HL : ∀ k v, (k, v) ∈ map_to_list m1 → m1 !! k = Some v)
      by (by intros ?? ?%elem_of_map_to_list).
    revert HL. generalize (map_to_list m1) as L.
    induction L as [|[k v] L IHL]; intros HL; [constructor|].
    cbn [foldr uncurry]. apply Forall_app. split.
    + destruct (m2 !! k).
      * apply (HD k); [apply HL; left | by destruct p].
      * constructor; [apply keeps_root_snoc_remove | constructor].
    + apply IHL. intros k' v' Hin. apply HL. by right.
  - generalize (map_to_list m2) as L.
    induction L as [|[k v] L IHL]; [constructor|].
    cbn [foldr uncurry]. destruct (m1 !! k); [done|].
    constructor; [apply keeps_root_snoc_add | done].
Qed.

Lemma diff_at_keeps_root : ∀ old new p, p ≠ [] → Forall keeps_root (diff_at p old new).
Proof.
  intros old. remember (value_size old) as n eqn:Hn. revert old Hn.
  induction (lt_wf n) as [n _ IH]. intros old -> new p Hp.
  assert (Hleaf : ∀ a b : value,
            Forall keeps_root (if decide (a = b) then [] else [OpReplace p b])).
  { intros a b. case_decide; [constructor|].
    constructor; [by destruct p | constructor]. }
  destruct old as [| | | |l1|m1|], new as [| | | |l2|m2|];
    try (match goal with
         | |- Forall _ (diff_at _ ?a ?b) => exact (Hleaf a b)
         end).
  - apply diff_elements_keeps_root. intros x y q Hx Hq.
    by apply (IH _ (value_size_element l1 x Hx)).
  - apply diff_members_keeps_root. intros k v1 v2 q Hk Hq.
    by apply (IH _ (value_size_member m1 k v1 Hk)).
Qed.

Lemma compare_keeps_root a b :
  same_container a b = true → Forall keeps_root (compare a b).
Proof.
  unfold compare. destruct a as [| | | |l1|m1|], b as [| | | |l2|m2|]; try done; intros _.
  - apply diff_elements_keeps_root. intros x y q _ Hq. by apply diff_at_keeps_root.
  - apply diff_members_keeps_root. intros k v1 v2 q _ Hq. by apply diff_at_keeps_root.
Qed.

Lemma buffer_free_member (m : gmap string value) k v :
  buffer_free (VObj m) = true → m !! k = Some v → buffer_free v = true.
Proof.
  simpl. rewrite map_fold_foldr. intros Hm Hk%elem_of_map_to_list.
  induction (map_to_list m) as [|[k' v'] L IH]; [by apply elem_of_nil in Hk|].
  cbn [foldr uncurry] in Hm. apply andb_true_iff in Hm as [Hv HL].
  apply elem_of_cons in Hk as [Heq|Hin]; [by simplify_eq | by apply IH].
Qed.

Lemma parse_toJSON : ∀ v, buffer_free v = true → parse (toJSON v) = v.
Proof.
  intros v. remember (value_size v) as n eqn:Hn. revert v Hn.
  induction (lt_wf n) as [n _ IH]. intros v -> Hv.
  destruct v as [| | | |l|m|]; simpl; try done.
  - f_equal. rewrite <- list_fmap_compose.
    assert (Hl : ∀ x, x ∈ l → buffer_free x = true).
    { simpl in Hv. clear IH. induction l as [|y l IHl]; intros x Hx.
      - by apply elem_of_nil in Hx.
      - simpl in Hv. apply andb_true_iff in Hv as [Hy Hl].
        apply elem_of_cons in Hx as [->|Hx]; [done | by apply IHl]. }
    rewrite <- (list_fmap_id l) at 2. apply list_fmap_ext.
    intros i x Hix. simpl.
    assert (x ∈ l) by (by eapply list_elem_of_lookup_2).
    by apply (IH _ (value_size_element l x ltac:(done))), Hl.
  - f_equal. rewrite <- map_fmap_compose. apply map_eq. intros k.
    rewrite lookup_fmap. destruct (m !! k) as [x|] eqn:Hk; simpl; [|done].
    f_equal. apply (IH _ (value_size_member m k x Hk)); [done|].
    by eapply buffer_free_member.
Qed.

Lemma inplace_compare A B :
  buffer_free A = true → same_container A B = true →
  applyPatch (parse (toJSON A)) (compare A B) = (B, Some B).
Proof.
  intros HA HAB. rewrite parse_toJSON by done.
  pose proof (diff_at_correct A B [] A eq_refl) as Hrt. simpl in Hrt.
  fold (compare A B) in Hrt.
  rewrite (surjective_pairing (applyPatch A (compare A B))).
  rewrite applyPatch_result, Hrt.
  by rewrite (applyPatch_object A (compare A B) B (compare_keeps_root A B HAB) Hrt).
Qed.

Lemma parent_cons k k' (p : pointer) : parent (k :: k' :: p) = k :: parent (k' :: p).
Proof. unfold parent. simpl. by rewrite Nat.sub_0_r. Qed.

Lemma at_parent_missing f d p : get d (parent p) = None → at_parent f d p = None.
Proof.
  revert d. induction p as [|k p IH]; intros d Hg; [done|].
  destruct p as [|k' p]; [done|].
  rewrite parent_cons in Hg. rewrite at_parent_cons by done. simpl in Hg.
  destruct (child d k) as [c|]; [|done]. simpl in *. by rewrite (IH c).
Qed.

Lemma unsatisfiable_fails d o : unsatisfiable d o → apply_op d o = None.
Proof.
  destruct o as [p v|p|p v|f p|f p|p v]; simpl; try done.
  - (* add *) intros Hg. destruct p as [|k p]; [done|].
    by apply at_parent_missing.
  - (* remove *) intros Hg. unfold remove.
    revert d Hg. induction p as [|k p IH]; intros d Hg; [done|].
    simpl in Hg. destruct p as [|k' p].
    + simpl. destruct (child d k) eqn:Hc; [done|].
      destruct d as [| | | |l|m|]; simpl in *; try done.
      * destruct (parse_index k) as [i|]; simpl in *; [|done].
        apply lookup_ge_None in Hc. rewrite decide_False; [done | lia].
      * by rewrite Hc.
    + rewrite at_parent_cons by done.
      destruct (child d k) as [c|]; simpl in *; [|done]. by rewrite (IH c).
  - (* replace *) intros Hg.
    destruct (replace d p v) eqn:Hr; [|done]. exfalso.
    revert d v v0 Hg Hr. induction p as [|k p IH]; intros d v d' Hg Hr; [done|].
    rewrite replace_cons in Hr. simpl in Hg.
    destruct (child d k) as [c|]; simpl in *; [|done].
    destruct (replace c p v) as [c'|] eqn:Hc; simpl in *; [|done]. by eapply IH.
  - intros ->. done.
  - intros ->. done.
  - intros ->. done.
Qed.

Section ClientFacts.
Variable ToNumber_text : value → Z.
Local Abbreviation deserialise := (deserialise ToNumber_text).
Local Abbreviation _handle := (_handle ToNumber_text).
Local Abbreviation perform := (perform ToNumber_text).
Local Abbreviation revive := (revive ToNumber_text).
Local Abbreviation reviver := (reviver ToNumber_text).
Local Abbreviation Buffer_from := (Buffer_from ToNumber_text).

Lemma log_this c t w : this (log c t w) = this w.
Proof. done. Qed.

Lemma handle_patch on data w msg P l C :
  deserialise data = Some msg → is_patch_message msg P →
  _appConfig (this w) = Some l → heap w !! l = Some C →
  _handle on data w =
    let dup := fresh (dom (heap w)) in
    let r := applyPatch (parse (toJSON C)) P in
    let w1 := with_heap (<[dup:=r.1]> (<[dup:=parse (toJSON C)]> (heap w)))
                (log (LogMsg msg) "Handling received message" w) in
    match r.2 with
    | None => (w1, Throw JsonPatchError)
    | Some _ =>
        (emit on EVENT.RECONFIGURE dup
           (log (LogConf (Some l) dup) "Emitting new configuration" w1),
         Return None)
    end.
Proof.
  intros Hd (Hnn & Hkind & Hverb & Hdata) Hl HC.
  unfold _handle. rewrite Hd.
  destruct msg as [| | | |?|m|]; try done.
  unfold field in *. simpl in *.
  rewrite Hkind, Hverb. rewrite decide_True by done.
  rewrite decide_False by done. rewrite decide_True by done.
  unfold snapshot. simpl. rewrite Hl. simpl. rewrite HC. rewrite Hdata.
  destruct (applyPatch (parse (toJSON C)) P) as [obj [res|]]; simpl; by rewrite ?Hl.
Qed.

Lemma fresh_loc (h : gmap loc value) : h !! fresh (dom h) = None.
Proof. apply not_elem_of_dom. apply is_fresh. Qed.

Lemma handle_patch_success on data w msg P l C C' r :
  deserialise data = Some msg → is_patch_message msg P →
  _appConfig (this w) = Some l → heap w !! l = Some C →
  applyPatch (parse (toJSON C)) P = (C', Some r) →
  ∃ dup w0,
    _handle on data w = (run_listeners on EVENT.RECONFIGURE dup w0, Return None) ∧
    heap w !! dup = None ∧
    heap w0 !! dup = Some C' ∧
    events w0 = events w ++ [(EVENT.RECONFIGURE, dup)] ∧
    this w0 = this w ∧
    snapshot w0 = Some C ∧
    outbox w0 = outbox w.
Proof.
  intros Hd Hmsg Hl HC Hap.
  rewrite (handle_patch on data w msg P l C Hd Hmsg Hl HC). cbn zeta.
  rewrite Hap. cbn [fst snd].
  eexists _, _. split; [reflexivity|].
  pose proof (fresh_loc (heap w)) as Hfresh.
  split_and!; try done.
  - simpl. by rewrite lookup_insert_eq.
  - unfold snapshot. simpl. rewrite Hl. simpl.
    rewrite !lookup_insert_ne; [done| |]; intros Heq; rewrite Heq in Hfresh; congruence.
Qed.

(** C1 (as the code has it): a successfully applied CONFIGURATION/PATCH
    emits RECONFIGURE exactly once, carrying a fresh object that holds the
    patched copy; when the listeners start, the session still holds its old
    document, and nothing is sent. *)
Theorem patch_emits_patched_copy on data w msg P l C C' r :
  deserialise data = Some msg → is_patch_message msg P →
  _appConfig (this w) = Some l → heap w !! l = Some C →
  applyPatch (parse (toJSON C)) P = (C', Some r) →
  ∃ dup w0,
    _handle on data w = (run_listeners on EVENT.RECONFIGURE dup w0, Return None) ∧
    heap w !! dup = None ∧
    heap w0 !! dup = Some C' ∧
    events w0 = events w ++ [(EVENT.RECONFIGURE, dup)] ∧
    this w0 = this w ∧
    snapshot w0 = Some C ∧
    outbox w0 = outbox w.
Proof. apply handle_patch_success. Qed.


Lemma run_listeners_cons name (l : listener) on ev arg w :
  run_listeners ((name, l) :: on) ev arg w
  = run_listeners on ev arg (if decide (name = ev) then l arg w else w).
Proof. done. Qed.

Lemma run_listeners_passive on ev arg : ∀ w,
  Forall (fun l => passive l.2) on →
  this (run_listeners on ev arg w) = this w ∧
  ∀ x v, heap w !! x = Some v → heap (run_listeners on ev arg w) !! x = Some v.
Proof.
  induction on as [|[name l] on IH]; intros w Hon; [done|].
  apply list.Forall_cons in Hon as [Hl Hon]. rewrite run_listeners_cons.
  destruct (decide (name = ev)); [|by apply IH].
  destruct (IH (l arg w) Hon) as [Ht Hh]. destruct (Hl arg w) as [Ht' Hh'].
  split; [by rewrite Ht|]. intros x v Hx. apply Hh, Hh', Hx.
Qed.

Lemma buildMsg_frame verb msg data id w :
  (buildMsg verb msg (Some data) id w).1
  = wire_message verb msg (toJSON data)
      (match id with
       | Some i => toJSON i
       | None => JString (phrases w (drawn w))
       end).
Proof.
  unfold buildMsg, wire_message, serialise, object_of.
  destruct id as [i|]; simpl; f_equal; f_equal;
    by rewrite !fmap_insert, fmap_empty, insert_empty.
Qed.

Lemma buildMsg_world verb msg data id w :
  this (buildMsg verb msg data id w).2 = this w ∧
  heap (buildMsg verb msg data id w).2 = heap w ∧
  outbox (buildMsg verb msg data id w).2 = outbox w ∧
  events (buildMsg verb msg data id w).2 = events w ∧
  journal (buildMsg verb msg data id w).2 = journal w ∧
  drawn (buildMsg verb msg data id w).2
  = match id with Some _ => drawn w | None => S (drawn w) end.
Proof. unfold buildMsg. by destruct id. Qed.

Lemma send_world msg w :
  this (send msg w) = this w ∧ heap (send msg w) = heap w ∧
  events (send msg w) = events w ∧
  outbox (send msg w)
  = match readyState (this w) with OPEN => outbox w ++ [msg] | _ => outbox w end.
Proof. unfold send. simpl. by destruct (readyState (this w)). Qed.

(** What [_handle] itself does to the client and to the objects that exist,
    whatever the frame. *)
Lemma handle_frame on data w :
  Forall (fun l => passive l.2) on →
  this (_handle on data w).1 = this w ∧
  ∀ x v, heap w !! x = Some v → heap (_handle on data w).1 !! x = Some v.
Proof.
  intros Hon. unfold _handle.
  assert (Hreply : ∀ (code : string) id w0,
            this w0 = this w → heap w0 = heap w →
            let br := buildMsg VERB.NOTIFY MESSAGE.ERROR (Some (VStr code)) id w0 in
            this (send br.1 br.2) = this w ∧
            ∀ x v, heap w !! x = Some v → heap (send br.1 br.2) !! x = Some v).
  { intros code id w0 Ht Hh br. subst br.
    match goal with
    | |- context [send ?f ?w1] => destruct (send_world f w1) as (-> & -> & _)
    end.
    destruct (buildMsg_world VERB.NOTIFY MESSAGE.ERROR (Some (VStr code)) id w0)
      as (-> & -> & _).
    rewrite Ht, Hh. done. }
  destruct (deserialise data) as [msg|].
  2:{ rewrite (surjective_pairing (build.ERROR.NOTIFY.JSON_PARSE_ERROR _ _)).
      by apply Hreply. }
  destruct (get_property msg "msg") as [|kind]; [done|].
  cbn zeta. generalize (field msg "verb") as verb, (field msg "id") as id,
    (field msg "data") as payload. intros verb id payload.
  case_decide.
  2:{ rewrite (surjective_pairing (build.ERROR.NOTIFY.UNSUPPORTED_MESSAGE _ _)).
      by apply Hreply. }
  case_decide; [done|]. case_decide.
  2:{ rewrite (surjective_pairing (build.ERROR.NOTIFY.UNSUPPORTED_VERB _ _)).
      by apply Hreply. }
  destruct (snapshot _) as [conf|]; [|done].
  pose proof (fresh_loc (heap w)) as Hfresh.
  assert (Hkeep : ∀ a b x v, heap w !! x = Some v →
            (<[fresh (dom (heap w)):=a]> (<[fresh (dom (heap w)):=b]> (heap w)))
              !! x = Some v).
  { intros a b x v Hx. rewrite !lookup_insert_ne; [done| |]; congruence. }
  simpl. destruct (payload ≫= patch_of_value) as [patch|]; simpl.
  2:{ split; [done|]. intros x v Hx. rewrite lookup_insert_ne; [done|congruence]. }
  destruct (applyPatch (parse (toJSON conf)) patch) as [obj [res|]]; simpl.
  2:{ split; [done|]. intros x v Hx. by apply Hkeep. }
  unfold emit.
  match goal with
  | |- context [run_listeners on ?ev ?arg ?w0] =>
      destruct (run_listeners_passive on ev arg w0 Hon) as [-> Hh]
  end.
  split; [done|]. intros x v Hx. apply Hh. simpl. by apply Hkeep.
Qed.

(** C2: of the operations a client offers, only the closure returned by
    [reconfigure] assigns [_appConfig]; every other one, [_handle] included,
    leaves the field and every existing object as they were. *)
Theorem appConfig_assigned_by_restart_only on w :
  Forall (fun l => passive l.2) on →
  (∀ c, (∀ logger appConfig, c ≠ CallRestart logger appConfig) →
        _appConfig (this (perform on c w)) = _appConfig (this w) ∧
        ∀ x v, heap w !! x = Some v → heap (perform on c w) !! x = Some v) ∧
  (∀ logger appConfig,
        _appConfig (this (perform on (CallRestart logger appConfig) w)) = appConfig).
Proof.
  intros Hon. split; [|done].
  intros c Hc. destruct c as [msg|data| |lg pt ac|lg ac|data]; simpl.
  - destruct (send_world msg w) as (-> & -> & _). done.
  - unfold receive. by destruct (deserialise data).
  - done.
  - done.
  - by destruct (Hc lg ac).
  - destruct (handle_frame on data w Hon) as [-> Hh]. done.
Qed.

(** C4 (as the code has it): the operations are applied in order to a deep
    copy of the document held, each to what the ones before it left.  An
    operation cannot be satisfied, among other cases, when it is a remove,
    replace or test at a path that document lacks, a move or copy from such
    a path, or an add below such a path.  A patch set with an operation that
    cannot be satisfied when it is reached makes the call throw; no event is
    emitted, nothing is sent, and the session holds the same document as
    before.  This is so in particular when the first operation names a path
    that a document without buffers lacks.  The document held is the same
    after a successful patch as well. *)
Theorem failed_patch_leaves_snapshot on data w msg P l C :
  deserialise data = Some msg → is_patch_message msg P →
  _appConfig (this w) = Some l → heap w !! l = Some C →
  (∀ d o, unsatisfiable d o → apply_op d o = None) ∧
  (∀ pre o post C1,
     P = pre ++ o :: post →
     apply_ops (parse (toJSON C)) pre = Some C1 → apply_op C1 o = None →
     ∃ w', _handle on data w = (w', Throw JsonPatchError) ∧
           snapshot w' = Some C ∧ this w' = this w ∧
           events w' = events w ∧ outbox w' = outbox w) ∧
  (∀ o post,
     P = o :: post → buffer_free C = true → unsatisfiable C o →
     ∃ w', _handle on data w = (w', Throw JsonPatchError) ∧
           snapshot w' = Some C ∧ this w' = this w ∧
           events w' = events w ∧ outbox w' = outbox w) ∧
  (Forall (fun l => passive l.2) on → snapshot (_handle on data w).1 = Some C).
Proof.
  intros Hd Hmsg Hl HC.
  assert (Hfail : ∀ pre o post C1,
     P = pre ++ o :: post →
     apply_ops (parse (toJSON C)) pre = Some C1 → apply_op C1 o = None →
     ∃ w', _handle on data w = (w', Throw JsonPatchError) ∧
           snapshot w' = Some C ∧ this w' = this w ∧
           events w' = events w ∧ outbox w' = outbox w).
  { intros pre o post C1 -> Hpre Ho.
    rewrite (handle_patch on data w msg _ l C Hd Hmsg Hl HC). cbn zeta.
    rewrite applyPatch_result, apply_ops_app, Hpre. simpl. rewrite Ho. simpl.
    eexists. split; [reflexivity|]. split_and!; try done.
    unfold snapshot. simpl. rewrite Hl. simpl.
    pose proof (fresh_loc (heap w)) as Hfresh.
    rewrite !lookup_insert_ne; [done| |]; intros Heq; rewrite Heq in Hfresh; congruence. }
  split_and!.
  - apply unsatisfiable_fails.
  - exact Hfail.
  - intros o post -> Hfree Ho. apply (Hfail [] o post C); [done| |].
    + by rewrite parse_toJSON.
    + by apply unsatisfiable_fails.
  - intros Hon. destruct (handle_frame on data w Hon) as [Ht Hh].
    unfold snapshot. rewrite Ht, Hl. simpl. by apply Hh.
Qed.

(** C6 (as the code has it): the patch is applied in place to a private deep
    copy.  The copy is a fresh object and holds whatever the in-place
    application left in it; the document the session holds is unchanged on
    success and on failure, and writing to either object leaves the other
    alone. *)
Theorem patch_is_applied_to_private_copy on data w msg P l C :
  deserialise data = Some msg → is_patch_message msg P →
  _appConfig (this w) = Some l → heap w !! l = Some C →
  ∃ dup w0,
    (_handle on data w = (w0, Throw JsonPatchError) ∨
     _handle on data w = (run_listeners on EVENT.RECONFIGURE dup w0, Return None)) ∧
    heap w !! dup = None ∧ dup ≠ l ∧
    heap w0 !! l = Some C ∧
    heap w0 !! dup = Some (applyPatch (parse (toJSON C)) P).1 ∧
    (∀ v, <[dup:=v]> (heap w0) !! l = Some C) ∧
    (∀ v, <[l:=v]> (heap w0) !! dup = heap w0 !! dup).
Proof.
  intros Hd Hmsg Hl HC.
  rewrite (handle_patch on data w msg P l C Hd Hmsg Hl HC). cbn zeta.
  pose proof (fresh_loc (heap w)) as Hfresh.
  assert (Hne : fresh (dom (heap w)) ≠ l) by (intros Heq; rewrite Heq in Hfresh; congruence).
  destruct (applyPatch (parse (toJSON C)) P) as [obj [res|]]; cbn [fst snd].
  - eexists _, _. split; [right; reflexivity|]. simpl.
    split_and!; try done.
    + by rewrite !lookup_insert_ne.
    + by rewrite lookup_insert_eq.
    + intros v. by rewrite !lookup_insert_ne.
    + intros v. by rewrite lookup_insert_ne.
  - eexists _, _. split; [left; reflexivity|]. simpl.
    split_and!; try done.
    + by rewrite !lookup_insert_ne.
    + by rewrite lookup_insert_eq.
    + intros v. by rewrite !lookup_insert_ne.
    + intros v. by rewrite lookup_insert_ne.
Qed.

Lemma handle_reply_parse on data w :
  deserialise data = None →
  _handle on data w =
    let w1 := log (LogData data) "Couldn't parse received message" w in
    let br := build.ERROR.NOTIFY.JSON_PARSE_ERROR None w1 in
    (send br.1 br.2, Return (Some "Couldn't parse received message"%string)).
Proof.
  intros Hd. unfold _handle. rewrite Hd. cbn zeta.
  by rewrite (surjective_pairing (build.ERROR.NOTIFY.JSON_PARSE_ERROR _ _)).
Qed.

Lemma reply_sent code id w1 w :
  this w1 = this w → outbox w1 = outbox w → drawn w1 = drawn w →
  phrases w1 = phrases w → readyState (this w) = OPEN →
  let br := buildMsg VERB.NOTIFY MESSAGE.ERROR (Some (VStr code)) id w1 in
  outbox (send br.1 br.2) = outbox w ++
    [wire_message VERB.NOTIFY MESSAGE.ERROR (JString code)
       (match id with
        | Some i => toJSON i
        | None => JString (phrases w (drawn w))
        end)] ∧
  this (send br.1 br.2) = this w ∧
  events (send br.1 br.2) = events w1 ∧ heap (send br.1 br.2) = heap w1.
Proof.
  intros Ht Ho Hdr Hph Hopen br. subst br.
  match goal with
  | |- context [send ?f ?w2] => destruct (send_world f w2) as (Hst & Hsh & Hse & Hso)
  end.
  destruct (buildMsg_world VERB.NOTIFY MESSAGE.ERROR (Some (VStr code)) id w1)
    as (Hbt & Hbh & Hbo & Hbe & _).
  rewrite Hst, Hsh, Hse, Hso, Hbt, Hbh, Hbe, Hbo, Ht, Ho, Hopen, buildMsg_frame, Hdr, Hph.
  done.
Qed.

Lemma handle_garbled on data w :
  deserialise data = None → readyState (this w) = OPEN →
  ∃ w', _handle on data w
        = (w', Return (Some "Couldn't parse received message"%string)) ∧
    outbox w' = outbox w ++
      [wire_message VERB.NOTIFY MESSAGE.ERROR (JString ERROR.JSON_PARSE_ERROR)
         (JString (phrases w (drawn w)))] ∧
    this w' = this w ∧ readyState (this w') = OPEN ∧
    events w' = events w ∧ heap w' = heap w.
Proof.
  intros Hd Hopen. rewrite (handle_reply_parse on data w Hd). cbn zeta.
  eexists. split; [reflexivity|]. unfold build.ERROR.NOTIFY.JSON_PARSE_ERROR.
  destruct (reply_sent ERROR.JSON_PARSE_ERROR None
              (log (LogData data) "Couldn't parse received message" w) w)
    as (Ho & Ht & He & Hh); try done.
  rewrite Ht. by split_and!.
Qed.

(** C7: a frame that does not decode is answered with ERROR/NOTIFY
    JSON_PARSE_ERROR under a generated id; [_handle] returns an [Error]
    instead of throwing, and the client, its socket state included, is as
    before. *)
Theorem garbled_frame_is_reported on data w :
  deserialise data = None → readyState (this w) = OPEN →
  ∃ w', _handle on data w
        = (w', Return (Some "Couldn't parse received message"%string)) ∧
    outbox w' = outbox w ++
      [wire_message VERB.NOTIFY MESSAGE.ERROR (JString ERROR.JSON_PARSE_ERROR)
         (JString (phrases w (drawn w)))] ∧
    this w' = this w ∧ readyState (this w') = OPEN ∧
    events w' = events w ∧ heap w' = heap w.
Proof. apply handle_garbled. Qed.


Lemma handle_reply_unsupported on data w msg :
  deserialise data = Some msg → msg ≠ VNull →
  field msg "verb" ≠ Some (VStr VERB.NOTIFY) ∨
    field msg "msg" ≠ Some (VStr MESSAGE.CONFIGURATION) →
  field msg "verb" ≠ Some (VStr VERB.PATCH) ∨
    field msg "msg" ≠ Some (VStr MESSAGE.CONFIGURATION) →
  _handle on data w =
    let w1 := log (LogMsg msg) "Handling received message" w in
    let code := if decide (field msg "msg" = Some (VStr MESSAGE.CONFIGURATION))
                then ERROR.UNSUPPORTED_VERB else ERROR.UNSUPPORTED_MESSAGE in
    let br := buildMsg VERB.NOTIFY MESSAGE.ERROR (Some (VStr code))
                (field msg "id") w1 in
    (send br.1 br.2, Return None).
Proof.
  intros Hd Hnn Hv1 Hv2. unfold _handle. rewrite Hd. cbn zeta.
  destruct msg as [| | | |?|m|]; try done; unfold field in *; simpl in *;
    try (by rewrite decide_False by done).
  case_decide as Hk.
  - destruct Hv1 as [Hv1|]; [|done]. destruct Hv2 as [Hv2|]; [|done].
    rewrite !decide_False by done.
    by rewrite (surjective_pairing (build.ERROR.NOTIFY.UNSUPPORTED_VERB _ _)).
  - by rewrite (surjective_pairing (build.ERROR.NOTIFY.UNSUPPORTED_MESSAGE _ _)).
Qed.

(** C8: a CONFIGURATION message whose verb is neither NOTIFY nor PATCH is
    answered with ERROR/NOTIFY UNSUPPORTED_VERB, a message of any other kind
    with ERROR/NOTIFY UNSUPPORTED_MESSAGE; the answer carries the id of the
    message it answers (a generated one when that message has none). *)
Theorem unsupported_is_reported on data w msg :
  deserialise data = Some msg → msg ≠ VNull → readyState (this w) = OPEN →
  let id := match field msg "id" with
            | Some i => toJSON i
            | None => JString (phrases w (drawn w))
            end in
  (field msg "msg" = Some (VStr MESSAGE.CONFIGURATION) →
   field msg "verb" ≠ Some (VStr VERB.NOTIFY) →
   field msg "verb" ≠ Some (VStr VERB.PATCH) →
   ∃ w', _handle on data w = (w', Return None) ∧
     outbox w' = outbox w ++
       [wire_message VERB.NOTIFY MESSAGE.ERROR (JString ERROR.UNSUPPORTED_VERB) id] ∧
     this w' = this w) ∧
  (field msg "msg" ≠ Some (VStr MESSAGE.CONFIGURATION) →
   ∃ w', _handle on data w = (w', Return None) ∧
     outbox w' = outbox w ++
       [wire_message VERB.NOTIFY MESSAGE.ERROR (JString ERROR.UNSUPPORTED_MESSAGE) id] ∧
     this w' = this w).
Proof.
  intros Hd Hnn Hopen id. split.
  - intros Hk Hv1 Hv2.
    rewrite (handle_reply_unsupported on data w msg Hd Hnn) by (by left).
    cbn zeta. rewrite decide_True by done.
    eexists. split; [reflexivity|].
    by destruct (reply_sent ERROR.UNSUPPORTED_VERB (field msg "id")
                  (log (LogMsg msg) "Handling received message" w) w) as (? & ? & _).
  - intros Hk.
    rewrite (handle_reply_unsupported on data w msg Hd Hnn) by (by right).
    cbn zeta. rewrite decide_False by done.
    eexists. split; [reflexivity|].
    by destruct (reply_sent ERROR.UNSUPPORTED_MESSAGE (field msg "id")
                  (log (LogMsg msg) "Handling received message" w) w) as (? & ? & _).
Qed.

Lemma install_spec dup w : install dup w = restart (_logger (this w)) (Some dup) w.
Proof. unfold install, reconfigure. simpl. by rewrite decide_True. Qed.

Lemma handle_patch_installed data w msg A B l :
  deserialise data = Some msg → is_patch_message msg (compare A B) →
  buffer_free A = true → same_container A B = true →
  _appConfig (this w) = Some l → heap w !! l = Some A →
  (_handle [(EVENT.RECONFIGURE, install)] data w).2 = Return None ∧
  ∃ l', _appConfig (this (_handle [(EVENT.RECONFIGURE, install)] data w).1) = Some l' ∧
        heap (_handle [(EVENT.RECONFIGURE, install)] data w).1 !! l' = Some B.
Proof.
  intros Hd Hmsg HA HAB Hl HC.
  destruct (handle_patch_success [(EVENT.RECONFIGURE, install)] data w msg
              (compare A B) l A B B Hd Hmsg Hl HC (inplace_compare A B HA HAB))
    as (dup & w0 & -> & _ & Hdup & _).
  rewrite run_listeners_cons. case_decide; [|done].
  unfold run_listeners. rewrite install_spec. simpl. split; [done|].
  by exists dup.
Qed.

(** C3 (as the code has it): dispatch alone never advances the document
    the session holds; when the RECONFIGURE listener installs each emitted
    document through the closure of [reconfigure] before the next frame is
    handled, the second patch set is applied against the result of the
    first and the session ends up holding [D2]. *)
Theorem sequential_patches_with_install data1 data2 msg1 msg2 w l D D1 D2 :
  buffer_free D = true → buffer_free D1 = true →
  same_container D D1 = true → same_container D1 D2 = true →
  _appConfig (this w) = Some l → heap w !! l = Some D →
  deserialise data1 = Some msg1 → is_patch_message msg1 (compare D D1) →
  deserialise data2 = Some msg2 → is_patch_message msg2 (compare D1 D2) →
  let on := [(EVENT.RECONFIGURE, install)] in
  let r1 := _handle on data1 w in
  let r2 := _handle on data2 r1.1 in
  r1.2 = Return None ∧ snapshot r1.1 = Some D1 ∧
  r2.2 = Return None ∧ snapshot r2.1 = Some D2.
Proof.
  intros HD HD1 Hc1 Hc2 Hl HC Hd1 Hm1 Hd2 Hm2 on r1 r2.
  destruct (handle_patch_installed data1 w msg1 D D1 l Hd1 Hm1 HD Hc1 Hl HC)
    as (Hr1 & l1 & Hl1 & HC1).
  fold on in Hr1, Hl1, HC1. fold r1 in Hr1, Hl1, HC1.
  destruct (handle_patch_installed data2 r1.1 msg2 D1 D2 l1 Hd2 Hm2 HD1 Hc2 Hl1 HC1)
    as (Hr2 & l2 & Hl2 & HC2).
  fold on in Hr2, Hl2, HC2. fold r2 in Hr2, Hl2, HC2.
  unfold snapshot. rewrite Hl1, Hl2. simpl. by split_and!.
Qed.

(** C10: every frame a builder produces has an id member: the id the caller
    passed, or the next phrase of the generator when none was passed; the
    answer to a frame that does not decode is built without an id and so
    carries a generated one. *)
Theorem built_messages_carry_id :
  (∀ b id w,
     ∃ m, (run_builder b id w).1 = JsonText (JObject m) ∧
       m !! "id"%string = Some (match id with
                                | Some i => toJSON i
                                | None => JString (phrases w (drawn w))
                                end) ∧
       drawn (run_builder b id w).2
       = match id with Some _ => drawn w | None => S (drawn w) end) ∧
  (∀ on data w,
     deserialise data = None → readyState (this w) = OPEN →
     ∃ m, outbox (_handle on data w).1 = outbox w ++ [JsonText (JObject m)] ∧
       m !! "id"%string = Some (JString (phrases w (drawn w)))).
Proof.
  split.
  - assert (Hb : ∀ verb msg data id w,
      ∃ m, (buildMsg verb msg data id w).1 = JsonText (JObject m) ∧
        m !! "id"%string = Some (match id with
                                 | Some i => toJSON i
                                 | None => JString (phrases w (drawn w))
                                 end) ∧
        drawn (buildMsg verb msg data id w).2
        = match id with Some _ => drawn w | None => S (drawn w) end).
    { intros verb msg data id w.
      destruct id as [i|]; (eexists; split_and!; [reflexivity| |done]);
        rewrite lookup_fmap; destruct data; simpl; by simplify_map_eq. }
    intros b id w. destruct b; apply Hb.
  - intros on data w Hd Hopen.
    destruct (handle_garbled on data w Hd Hopen) as (w' & -> & Ho & _).
    cbn [fst]. rewrite Ho. eexists. split; [reflexivity|]. by simplify_map_eq.
Qed.
End ClientFacts.

(** * The theorems at work on the sample session *)
Import Sample.

(** C1, counterexample: after the PATCH from [{"a":1}] to [{"a":2,"b":true}]
    has been handled and has succeeded, the session still holds [{"a":1}],
    and that is also what a RECONFIGURE listener finds when it runs. *)
Lemma patch_does_not_replace_snapshot :
  let frame := patch_frame doc_a1 doc_a2b "id-1" in
  let w' := (_handle ToNumber_text [(EVENT.RECONFIGURE, probe)] frame session).1 in
  is_patch_message (decoded frame) (compare doc_a1 doc_a2b) ∧
  applyPatch (parse (toJSON doc_a1)) (compare doc_a1 doc_a2b)
    = (doc_a2b, Some doc_a2b) ∧
  snapshot w' ≠ Some doc_a2b ∧
  snapshot w' = Some doc_a1 ∧
  list.last (journal w')
    = Some {| log_via := 0; log_payload := LogMsg doc_a1; log_text := "observed" |}.
Proof. split_and!; [patch_message | run ..]. Qed.

Lemma patch_emits_patched_copy_witness :
  ∃ dup w0,
    _handle ToNumber_text [] (patch_frame doc_a1 doc_a2b "id-1") session
      = (run_listeners [] EVENT.RECONFIGURE dup w0, Return None) ∧
    heap session !! dup = None ∧
    heap w0 !! dup = Some doc_a2b ∧
    events w0 = events session ++ [(EVENT.RECONFIGURE, dup)] ∧
    this w0 = this session ∧
    snapshot w0 = Some doc_a1 ∧
    outbox w0 = outbox session.
Proof.
  apply (patch_emits_patched_copy ToNumber_text [] (patch_frame doc_a1 doc_a2b "id-1")
           session (decoded (patch_frame doc_a1 doc_a2b "id-1"))
           (compare doc_a1 doc_a2b) 1%positive doc_a1 doc_a2b doc_a2b);
    [run | patch_message | run ..].
Defined.

Lemma appConfig_assigned_by_restart_only_witness :
  (∀ c, (∀ logger appConfig, c ≠ CallRestart logger appConfig) →
        _appConfig (this (perform ToNumber_text [] c session)) = Some 1%positive ∧
        ∀ x v, heap session !! x = Some v →
               heap (perform ToNumber_text [] c session) !! x = Some v) ∧
  (∀ logger appConfig,
        _appConfig (this (perform ToNumber_text [] (CallRestart logger appConfig) session))
        = appConfig).
Proof.
  apply (appConfig_assigned_by_restart_only ToNumber_text [] session). constructor.
Defined.

(** C3, counterexample: two PATCH frames, from [{"a":1}] to [{"a":2}] and
    from [{"a":2}] to [{"a":2,"b":true}], handled one after the other: the
    second is applied to a copy of [{"a":1}] (it emits [{"a":1,"b":true}]),
    and the session holds [{"a":1}] afterwards, not [{"a":2,"b":true}]. *)
Lemma sequential_patches_keep_first_base :
  let f1 := patch_frame doc_a1 doc_a2 "id-1" in
  let f2 := patch_frame doc_a2 doc_a2b "id-2" in
  let w1 := (_handle ToNumber_text [] f1 session).1 in
  let w2 := (_handle ToNumber_text [] f2 w1).1 in
  is_patch_message (decoded f1) (compare doc_a1 doc_a2) ∧
  is_patch_message (decoded f2) (compare doc_a2 doc_a2b) ∧
  snapshot w2 ≠ Some doc_a2b ∧
  snapshot w2 = Some doc_a1 ∧
  (λ e, heap w2 !! e.2) <$> events w2 = [Some doc_a2; Some doc_a1b].
Proof. split_and!; [patch_message | patch_message | run ..]. Qed.

Lemma sequential_patches_with_install_witness :
  let on := [(EVENT.RECONFIGURE, install)] in
  let r1 := _handle ToNumber_text on (patch_frame doc_a1 doc_a2 "id-1") session in
  let r2 := _handle ToNumber_text on (patch_frame doc_a2 doc_a2b "id-2") r1.1 in
  r1.2 = Return None ∧ snapshot r1.1 = Some doc_a2 ∧
  r2.2 = Return None ∧ snapshot r2.1 = Some doc_a2b.
Proof.
  apply (sequential_patches_with_install ToNumber_text
           (patch_frame doc_a1 doc_a2 "id-1") (patch_frame doc_a2 doc_a2b "id-2")
           (decoded (patch_frame doc_a1 doc_a2 "id-1"))
           (decoded (patch_frame doc_a2 doc_a2b "id-2"))
           session 1%positive doc_a1 doc_a2 doc_a2b);
    [run | run | run | run | run | run | run | patch_message | run | patch_message].
Defined.

(** C4, counterexample: [{"a":1}] has no member [c], and the patch set
    [add /c 1; remove /c] names that path in both operations, the second a
    remove; it is applied without an exception, and RECONFIGURE is emitted
    with a copy that holds [{"a":1}]. *)
Lemma absent_path_does_not_abort :
  let P := [OpAdd ["c"%string] (VNum (int 1)); OpRemove ["c"%string]] in
  let frame := raw_patch_frame P "id-4" in
  let r := _handle ToNumber_text [] frame session in
  is_patch_message (decoded frame) P ∧
  snapshot session = Some doc_a1 ∧
  get doc_a1 ["c"%string] = None ∧
  r.2 = Return None ∧ r.2 ≠ Throw JsonPatchError ∧
  (λ e, (e.1, heap r.1 !! e.2)) <$> events r.1
    = [(EVENT.RECONFIGURE, Some doc_a1)].
Proof. split_and!; [patch_message | run ..]. Qed.

Lemma failed_patch_leaves_snapshot_witness :
  let P := [OpReplace ["a"%string] (VNum (int 2));
            OpAdd ["c"; "d"]%string (VBool true)] in
  let frame := raw_patch_frame P "id-4" in
  apply_op doc_a2 (OpAdd ["c"; "d"]%string (VBool true)) = None ∧
  apply_op doc_a2 (OpRemove ["c"; "d"]%string) = None ∧
  (∃ w', _handle ToNumber_text [] frame session = (w', Throw JsonPatchError) ∧
         snapshot w' = Some doc_a1 ∧ this w' = this session ∧
         events w' = events session ∧ outbox w' = outbox session) ∧
  snapshot (_handle ToNumber_text [] frame session).1 = Some doc_a1.
Proof.
  intros P frame.
  destruct (failed_patch_leaves_snapshot ToNumber_text [] frame session
              (decoded frame) P 1%positive doc_a1)
    as (Hwhy & Hfail & _ & Hkeep); [run | patch_message | run | run |].
  split_and!.
  - apply (Hwhy doc_a2 (OpAdd ["c"; "d"]%string (VBool true))); run.
  - apply (Hwhy doc_a2 (OpRemove ["c"; "d"]%string)); run.
  - apply (Hfail [OpReplace ["a"%string] (VNum (int 2))]
             (OpAdd ["c"; "d"]%string (VBool true)) [] doc_a2); run.
  - apply Hkeep. constructor.
Defined.

(** C6, counterexample: the document handed to [applyPatch] holds
    [{"a":2,"b":true}] after the call, not the [{"a":1}] it held before. *)
Lemma applyPatch_changes_its_argument :
  let w' := (_handle ToNumber_text [] (patch_frame doc_a1 doc_a2b "id-1") session).1 in
  (applyPatch doc_a1 (compare doc_a1 doc_a2b)).1 = doc_a2b ∧
  (applyPatch doc_a1 (compare doc_a1 doc_a2b)).1 ≠ doc_a1 ∧
  (λ e, heap w' !! e.2) <$> events w' = [Some doc_a2b].
Proof. split_and!; run. Qed.

Lemma patch_is_applied_to_private_copy_witness :
  let frame := patch_frame doc_a1 doc_a2b "id-1" in
  ∃ dup w0,
    (_handle ToNumber_text [] frame session = (w0, Throw JsonPatchError) ∨
     _handle ToNumber_text [] frame session
       = (run_listeners [] EVENT.RECONFIGURE dup w0, Return None)) ∧
    heap session !! dup = None ∧ dup ≠ 1%positive ∧
    heap w0 !! 1%positive = Some doc_a1 ∧
    heap w0 !! dup
      = Some (applyPatch (parse (toJSON doc_a1)) (compare doc_a1 doc_a2b)).1 ∧
    (∀ v, <[dup:=v]> (heap w0) !! 1%positive = Some doc_a1) ∧
    (∀ v, <[1%positive:=v]> (heap w0) !! dup = heap w0 !! dup).
Proof.
  intros frame.
  apply (patch_is_applied_to_private_copy ToNumber_text [] frame session
           (decoded frame) (compare doc_a1 doc_a2b) 1%positive doc_a1);
    [run | patch_message | run | run].
Defined.

Lemma garbled_frame_is_reported_witness :
  ∃ w', _handle ToNumber_text [] (Garbled "{not json") session
        = (w', Return (Some "Couldn't parse received message"%string)) ∧
    outbox w' = outbox session ++
      [wire_message VERB.NOTIFY MESSAGE.ERROR (JString ERROR.JSON_PARSE_ERROR)
         (JString "phrase 0")] ∧
    this w' = this session ∧ readyState (this w') = OPEN ∧
    events w' = events session ∧ heap w' = heap session.
Proof.
  apply (garbled_frame_is_reported ToNumber_text [] (Garbled "{not json") session); run.
Defined.

Lemma unsupported_is_reported_witness :
  (∃ w', _handle ToNumber_text [] (read_frame "id-8") session = (w', Return None) ∧
     outbox w' = outbox session ++
       [wire_message VERB.NOTIFY MESSAGE.ERROR (JString ERROR.UNSUPPORTED_VERB)
          (JString "id-8")] ∧
     this w' = this session) ∧
  (∃ w', _handle ToNumber_text [] (other_frame "id-9") session = (w', Return None) ∧
     outbox w' = outbox session ++
       [wire_message VERB.NOTIFY MESSAGE.ERROR (JString ERROR.UNSUPPORTED_MESSAGE)
          (JString "id-9")] ∧
     this w' = this session).
Proof.
  split.
  - apply (unsupported_is_reported ToNumber_text [] (read_frame "id-8") session
             (decoded (read_frame "id-8"))); run.
  - apply (unsupported_is_reported ToNumber_text [] (other_frame "id-9") session
             (decoded (other_frame "id-9"))); run.
Defined.

Lemma built_messages_carry_id_witness :
  (∃ m, (run_builder Build_CONFIGURATION_READ None session).1
        = JsonText (JObject m) ∧
     m !! "id"%string = Some (JString "phrase 0") ∧
     drawn (run_builder Build_CONFIGURATION_READ None session).2 = 1) ∧
  (∃ m, outbox (_handle ToNumber_text [] (Garbled "{not json") session).1
        = outbox session ++ [JsonText (JObject m)] ∧
     m !! "id"%string = Some (JString "phrase 0")).
Proof.
  destruct (built_messages_carry_id ToNumber_text) as [Hbuild Hreply]. split.
  - apply (Hbuild Build_CONFIGURATION_READ None session).
  - apply (Hreply [] (Garbled "{not json") session); run.
Defined.

(** * Further facts about the codec and the client *)

Lemma map_all_member {A} (f : A → bool) (m : gmap string A) k v :
  map_fold (fun _ x acc => f x && acc) true m = true → m !! k = Some v → f v = true.
Proof.
  rewrite map_fold_foldr. intros Hm Hk%elem_of_map_to_list.
  induction (map_to_list m) as [|[k' v'] L IH]; [by apply elem_of_nil in Hk|].
  cbn [foldr uncurry] in Hm. apply andb_true_iff in Hm as [Hv HL].
  apply elem_of_cons in Hk as [Heq|Hin]; [by simplify_eq | by apply IH].
Qed.

Lemma map_all_intro {A} (f : A → bool) (m : gmap string A) :
  (∀ k v, m !! k = Some v → f v = true) →
  map_fold (fun _ x acc => f x && acc) true m = true.
Proof.
  intros Hm. rewrite map_fold_foldr.
  assert (HL : ∀ k v, (k, v) ∈ map_to_list m → f v = true).
  { intros k v Hin%elem_of_map_to_list. by apply (Hm k). }
  revert HL. generalize (map_to_list m) as L.
  induction L as [|[k v] L IH]; intros HL; [done|].
  cbn [foldr uncurry]. rewrite (HL k v) by left. simpl.
  apply IH. intros k' v' Hin. apply (HL k'). by right.
Qed.

Lemma list_all_member {A} (f : A → bool) (l : list A) x :
  foldr (fun x acc => f x && acc) true l = true → x ∈ l → f x = true.
Proof.
  induction l as [|y l IH]; intros Hl Hx; [by apply elem_of_nil in Hx|].
  simpl in Hl. apply andb_true_iff in Hl as [Hy Hl].
  apply elem_of_cons in Hx as [->|Hx]; [done | by apply IH].
Qed.

Lemma list_all_intro {A} (f : A → bool) (l : list A) :
  (∀ x, x ∈ l → f x = true) → foldr (fun x acc => f x && acc) true l = true.
Proof.
  induction l as [|y l IH]; intros Hl; [done|]. simpl.
  rewrite Hl by left. simpl. apply IH. intros x Hx. apply Hl. by right.
Qed.

Lemma json_size_member (m : gmap string json) k v :
  m !! k = Some v → json_size v < json_size (JObject m).
Proof.
  intros Hk. simpl. rewrite map_fold_foldr.
  apply elem_of_map_to_list in Hk.
  induction (map_to_list m) as [|[k' v'] L IH]; [by apply elem_of_nil in Hk|].
  apply elem_of_cons in Hk as [Heq | Hin]; simpl.
  - inversion Heq; subst. lia.
  - specialize (IH Hin). lia.
Qed.

Lemma json_size_element (l : list json) x :
  x ∈ l → json_size x < json_size (JArray l).
Proof.
  intros Hx. simpl.
  induction l as [|y l IH]; [by apply elem_of_nil in Hx|].
  apply elem_of_cons in Hx as [-> | Hin]; simpl; [lia|].
  specialize (IH Hin). lia.
Qed.




(** *** JSON pointers as strings *)
Lemma string_app_nil_r (s : string) : (s +:+ "")%string = s.
Proof.
  induction s as [|c s IH]; [done|].
  change (String c s +:+ "")%string with (String c (s +:+ "")). by f_equal.
Qed.

Lemma unescape_other c s :
  c ≠ "~"%char → unescapePathComponent (String c s) = String c (unescapePathComponent s).
Proof.
  intros Hc.
  destruct c as [b0 b1 b2 b3 b4 b5 b6 b7].
  destruct b0, b1, b2, b3, b4, b5, b6, b7; try reflexivity; by destruct Hc.
Qed.

Lemma unescape_escape t : unescapePathComponent (escapePathComponent t) = t.
Proof.
  induction t as [|c t IH]; [done|]. simpl.
  destruct (Ascii.eqb c "~") eqn:H1.
  { apply Ascii.eqb_eq in H1 as ->. simpl. by rewrite IH. }
  destruct (Ascii.eqb c "/") eqn:H2.
  { apply Ascii.eqb_eq in H2 as ->. simpl. by rewrite IH. }
  apply Ascii.eqb_neq in H1. by rewrite unescape_other, IH.
Qed.

Lemma split_slash_nonempty s : ∃ r rs, split_slash s = r :: rs.
Proof.
  induction s as [|c s IH]; simpl; [by eexists _, _|].
  destruct IH as (r & rs & IH).
  destruct (Ascii.eqb c "/"); [by eexists _, _|]. rewrite IH. by eexists _, _.
Qed.

Lemma split_slash_cons c s r rs :
  c ≠ "/"%char → split_slash s = r :: rs →
  split_slash (String c s) = String c r :: rs.
Proof. intros Hc%Ascii.eqb_neq Hs. simpl. by rewrite Hc, Hs. Qed.

Lemma split_slash_escape t rest r rs :
  split_slash rest = r :: rs →
  split_slash (escapePathComponent t +:+ rest) = (escapePathComponent t +:+ r) :: rs.
Proof.
  intros Hrest. induction t as [|c t IH]; [done|]. simpl.
  destruct (Ascii.eqb c "~") eqn:H1; [|destruct (Ascii.eqb c "/") eqn:H2].
  - change (String "~" (String "0" (escapePathComponent t)) +:+ rest)%string
      with (String "~" (String "0" (escapePathComponent t +:+ rest))).
    apply split_slash_cons; [done|]. by apply split_slash_cons.
  - change (String "~" (String "1" (escapePathComponent t)) +:+ rest)%string
      with (String "~" (String "1" (escapePathComponent t +:+ rest))).
    apply split_slash_cons; [done|]. by apply split_slash_cons.
  - apply Ascii.eqb_neq in H2.
    change (String c (escapePathComponent t) +:+ rest)%string
      with (String c (escapePathComponent t +:+ rest)).
    by apply split_slash_cons.
Qed.

Lemma split_slash_pointer t ts :
  split_slash (escapePathComponent t +:+ pointer_to_string ts)
  = escapePathComponent <$> (t :: ts).
Proof.
  revert t. induction ts as [|t' ts IH]; intros t.
  - rewrite (split_slash_escape t _ EmptyString []) by done.
    by rewrite string_app_nil_r.
  - change (pointer_to_string (t' :: ts))
      with (String "/" (escapePathComponent t' +:+ pointer_to_string ts)).
    rewrite (split_slash_escape t _ EmptyString (escapePathComponent <$> (t' :: ts))).
    + by rewrite string_app_nil_r.
    + cbn [split_slash]. by rewrite Ascii.eqb_refl, IH.
Qed.

Lemma pointer_roundtrip p : string_to_pointer (pointer_to_string p) = Some p.
Proof.
  destruct p as [|t ts]; [done|].
  change (pointer_to_string (t :: ts))
    with (String "/" (escapePathComponent t +:+ pointer_to_string ts)).
  cbn [string_to_pointer]. rewrite Ascii.eqb_refl, split_slash_pointer. f_equal.
  rewrite <- list_fmap_compose. rewrite <- (list_fmap_id (t :: ts)) at 2.
  apply list_fmap_ext. intros i x _. simpl. apply unescape_escape.
Qed.

Lemma operation_roundtrip o : value_to_operation (operation_to_value o) = Some o.
Proof.
  destruct o as [p v|p|p v|f p|f p|p v]; unfold value_to_operation, operation_to_value,
    pointer_field; simplify_map_eq; rewrite ?pointer_roundtrip; simpl;
    repeat (case_decide; simplify_eq); simplify_map_eq; rewrite ?pointer_roundtrip; done.
Qed.

Lemma patch_roundtrip ps : patch_of_value (value_of_patch ps) = Some ps.
Proof.
  unfold patch_of_value, value_of_patch.
  apply mapM_fmap_Some, operation_roundtrip.
Qed.


(** *** What the operations of a diff carry *)
Lemma diff_elements_Forall (P : operation → Prop) D p : ∀ l1 l2 i,
  (∀ x y q, x ∈ l1 → y ∈ l2 → Forall P (D q x y)) →
  (∀ y q, y ∈ l2 → P (OpAdd q y)) → (∀ q, P (OpRemove q)) →
  Forall P (diff_elements D p i l1 l2).
Proof.
  induction l1 as [|x l1 IH]; intros l2 i HD Hadd Hrem.
  - simpl. clear HD. revert i. induction l2 as [|y l2 IHl]; intros i; [constructor|].
    rewrite imap_cons. constructor; [apply Hadd; left|].
    assert (Hext : imap ((fun j y0 => OpAdd (p ++ [show_index (i + j)]) y0) ∘ S) l2
                   = imap (fun j y0 => OpAdd (p ++ [show_index (S i + j)]) y0) l2).
    { apply imap_ext. intros j z _. simpl.
      by replace (i + S j) with (S (i + j)) by lia. }
    rewrite Hext. apply IHl. intros z q Hz. apply Hadd. by right.
  - destruct l2 as [|y l2].
    + unfold diff_elements. apply Forall_fmap, Forall_forall. intros j _. apply Hrem.
    + simpl. apply Forall_app. split.
      * apply HD; left.
      * apply IH; [|intros z q Hz; apply Hadd; by right|done].
        intros x' y' q Hx' Hy'. apply HD; by right.
Qed.

Lemma diff_members_Forall (P : operation → Prop) D p (m1 m2 : gmap string value) :
  (∀ k v1 v2, m1 !! k = Some v1 → m2 !! k = Some v2 → Forall P (D (p ++ [k]) v1 v2)) →
  (∀ k v2, m2 !! k = Some v2 → P (OpAdd (p ++ [k]) v2)) → (∀ q, P (OpRemove q)) →
  Forall P (diff_members D p m1 m2).
Proof.
  intros HD Hadd Hrem. unfold diff_members. rewrite !map_fold_foldr.
  apply Forall_app. split.
  - assert (HL : ∀ k v, (k, v) ∈ map_to_list m1 → m1 !! k = Some v)
      by (by intros ?? ?%elem_of_map_to_list).
    revert HL. generalize (map_to_list m1) as L.
    induction L as [|[k v] L IHL]; intros HL; [constructor|].
    cbn [foldr uncurry]. apply Forall_app. split.
    + destruct (m2 !! k) eqn:Hk2.
      * apply HD; [apply HL; left | done].
      * constructor; [apply Hrem | constructor].
    + apply IHL. intros k' v' Hin. apply HL. by right.
  - assert (HL : ∀ k v, (k, v) ∈ map_to_list m2 → m2 !! k = Some v)
      by (by intros ?? ?%elem_of_map_to_list).
    revert HL. generalize (map_to_list m2) as L.
    induction L as [|[k v] L IHL]; intros HL; [constructor|].
    cbn [foldr uncurry].
    assert (Forall P (foldr (uncurry (fun k v2 acc =>
              match m1 !! k with
              | Some _ => acc
              | None => OpAdd (p ++ [k]) v2 :: acc
              end)) [] L)) as Hrest.
    { apply IHL. intros k' v' Hin. apply HL. by right. }
    destruct (m1 !! k); [done|].
    constructor; [apply Hadd, HL; left | done].
Qed.

Lemma wire_stable_member (m : gmap string value) k v :
  wire_stable (VObj m) = true → m !! k = Some v → wire_stable v = true.
Proof.
  unfold wire_stable. simpl. intros [[_ Ht]%andb_true_iff Ho]%andb_true_iff Hk.
  by rewrite (map_all_member tag_free m k v Ht Hk), (map_all_member octets m k v Ho Hk).
Qed.

Lemma wire_stable_element (l : list value) x :
  wire_stable (VArr l) = true → x ∈ l → wire_stable x = true.
Proof.
  unfold wire_stable. simpl. intros [Ht Ho]%andb_true_iff Hx.
  by rewrite (list_all_member tag_free l x Ht Hx), (list_all_member octets l x Ho Hx).
Qed.

Lemma diff_at_carries_stable : ∀ old new p,
  wire_stable new = true → Forall (fun o => carries_stable o = true) (diff_at p old new).
Proof.
  intros old. remember (value_size old) as n eqn:Hn. revert old Hn.
  induction (lt_wf n) as [n _ IH]. intros old -> new p Hnew.
  assert (Hleaf : ∀ a : value,
            Forall (fun o => carries_stable o = true)
              (if decide (a = new) then [] else [OpReplace p new])).
  { intros a. case_decide; [constructor|]. constructor; [done | constructor]. }
  destruct old as [| | | |l1|m1|], new as [| | | |l2|m2|];
    try (match goal with
         | |- Forall _ (diff_at _ ?a ?b) => exact (Hleaf a)
         end).
  - apply diff_elements_Forall; [|intros y q Hy; by apply (wire_stable_element l2)|done].
    intros x y q Hx Hy.
    apply (IH _ (value_size_element l1 x Hx) x eq_refl).
    by apply (wire_stable_element l2).
  - apply diff_members_Forall; [|intros k v2 Hk; by apply (wire_stable_member m2 k)|done].
    intros k v1 v2 Hk1 Hk2.
    apply (IH _ (value_size_member m1 k v1 Hk1) v1 eq_refl).
    by apply (wire_stable_member m2 k).
Qed.

Lemma operation_to_value_stable o :
  carries_stable o = true → wire_stable (operation_to_value o) = true.
Proof.
  intros Ho.
  assert (Hall : ∀ (f : value → bool) (m : gmap string value),
            (∀ k v, m !! k = Some v → f v = true) →
            map_fold (fun _ x acc => f x && acc) true m = true)
    by (intros; by apply map_all_intro).
  destruct o as [p v|p|p v|f p|f p|p v]; simpl in Ho;
    try (apply andb_true_iff in Ho as [Hvt Hvo]);
    unfold wire_stable, operation_to_value; cbn [tag_free octets];
    (apply andb_true_iff; split; [apply andb_true_iff; split; [done|]|]);
    apply Hall; intros k x Hk.
  all: repeat (apply lookup_insert_Some in Hk as [[<- <-]|[? Hk]]; [done|]).
  all: try (apply lookup_singleton_Some in Hk as [<- <-]).
  all: try done.
Qed.

Lemma value_of_patch_stable ps :
  Forall (fun o => carries_stable o = true) ps →
  wire_stable (value_of_patch ps) = true.
Proof.
  intros Hps. unfold value_of_patch.
  assert (Hs : ∀ x, x ∈ operation_to_value <$> ps → wire_stable x = true).
  { intros x Hx. apply list_elem_of_fmap in Hx as (o & -> & Ho).
    apply operation_to_value_stable.
    revert o Ho. by apply list.Forall_forall. }
  unfold wire_stable. simpl. apply andb_true_iff.
  split; apply list_all_intro; intros x Hx; specialize (Hs x Hx);
    unfold wire_stable in Hs; by apply andb_true_iff in Hs as [? ?].
Qed.

Lemma fmap_Some_inj {A} (o : option A) (r : option A) : Some <$> o = Some r → o = r.
Proof. destruct o; simpl; congruence. Qed.

Lemma collect_Some {A} (m : gmap string (option A)) (m' : gmap string A) :
  collect m = Some m' ↔ m = Some <$> m'.
Proof.
  unfold collect. split.
  - destruct (map_fold _ true m) eqn:Hall; [|done]. intros [= <-].
    apply map_eq. intros k. rewrite lookup_fmap, lookup_omap.
    destruct (m !! k) as [o|] eqn:Hk; [|done]. simpl.
    pose proof (map_all_member (fun o => bool_decide (is_Some o)) m k o Hall Hk) as Ho.
    apply bool_decide_eq_true in Ho as [x ->]. done.
  - intros ->. rewrite (map_all_intro (fun o => bool_decide (is_Some o))).
    + f_equal. apply map_eq. intros k. rewrite lookup_omap, lookup_fmap.
      by destruct (m' !! k).
    + intros k o. rewrite lookup_fmap. destruct (m' !! k); [|done].
      intros [= <-]. by apply bool_decide_eq_true_2.
Qed.

Lemma sequence_Some {A} (l : list (option A)) (l' : list A) :
  mapM id l = Some l' ↔ l = Some <$> l'.
Proof.
  rewrite mapM_Some. split.
  - induction 1 as [|x y l l' Hxy _ IH]; [done|]. simpl in *. by rewrite Hxy, IH.
  - intros ->. induction l' as [|y l' IH]; constructor; done.
Qed.

Lemma map_indexed_lookup {A B} (f : nat → A → B) (l : list A) : ∀ i x,
  x ∈ map_indexed f i l → ∃ j y, y ∈ l ∧ x = f j y.
Proof.
  induction l as [|y l IH]; intros i x Hx; simpl in Hx; [by apply elem_of_nil in Hx|].
  apply elem_of_cons in Hx as [->|Hx].
  - exists i, y. split; [left | done].
  - destruct (IH _ _ Hx) as (j & z & Hz & ->). exists j, z. split; [by right | done].
Qed.

Lemma map_indexed_fmap_ext {A B} (f : nat → A → B) (g : A → B) (l : list A) : ∀ i,
  (∀ j x, x ∈ l → f j x = g x) → map_indexed f i l = g <$> l.
Proof.
  induction l as [|x l IH]; intros i Hf; [done|]. simpl.
  rewrite Hf by left. f_equal. apply IH. intros j y Hy. apply Hf. by right.
Qed.

Lemma octets_range bytes :
  forallb octet bytes = true → Forall (fun b => 0 ≤ b < 256)%Z bytes.
Proof.
  induction bytes as [|b bytes IH]; simpl; [constructor|].
  intros [Hb Hbs]%andb_true_iff. constructor; [|by apply IH].
  unfold octet in Hb. apply andb_true_iff in Hb as [H1 H2].
  apply Z.leb_le in H1. apply Z.ltb_lt in H2. lia.
Qed.

(** *** Numbers *)
Lemma int_safe n : safe n → proj1_sig (int n) = n.
Proof.
  intros Hn. unfold int.
  set (K := fun p : Is_true (bool_decide (safe n)) => (n ↾ p : number)).
  assert (HK : ∀ p, proj1_sig (K p) = n) by done.
  clearbody K. revert K HK.
  rewrite (bool_decide_eq_true_2 (safe n) Hn). intros K HK. apply HK.
Qed.

Lemma octet_safe b : (0 ≤ b < 256)%Z → safe b.
Proof. intros Hb. unfold safe. lia. Qed.

(** *** The reviver *)
Section MoreClientFacts.
Variable ToNumber_text : value → Z.
Local Abbreviation deserialise := (deserialise ToNumber_text).
Local Abbreviation _handle := (_handle ToNumber_text).
Local Abbreviation revive := (revive ToNumber_text).
Local Abbreviation reviver := (reviver ToNumber_text).
Local Abbreviation Buffer_from := (Buffer_from ToNumber_text).
Local Abbreviation ToUint8 := (ToUint8 ToNumber_text).

Lemma reviver_plain k m : tagged m = false → reviver k (VObj m) = Some (VObj m).
Proof.
  unfold tagged, reviver. destruct (m !! "type"%string) as [[| | |t| | |]|]; try done.
  destruct (m !! "data"%string) as [[| | | |d| |]|]; try done.
  intros Ht. apply bool_decide_eq_false in Ht. by rewrite decide_False.
Qed.

Lemma reviver_tagged k m :
  tagged m = true →
  ∃ d, m !! "data"%string = Some (VArr d) ∧
       reviver k (VObj m) = VBuffer <$> Buffer_from d.
Proof.
  unfold tagged, reviver. destruct (m !! "type"%string) as [[| | |t| | |]|]; try done.
  destruct (m !! "data"%string) as [[| | | |d| |]|]; try done.
  intros Ht. apply bool_decide_eq_true in Ht. rewrite decide_True by done. by exists d.
Qed.


Lemma ToUint8_octet v b : ToUint8 v = Some b → octet b = true.
Proof.
  assert (H : ∀ z, octet (z mod 256) = true).
  { intros z. unfold octet. pose proof (Z.mod_pos_bound z 256 ltac:(lia)).
    apply andb_true_iff. split; [apply Z.leb_le | apply Z.ltb_lt]; lia. }
  destruct v as [|[]| | |l|m|]; unfold ToUint8; try destruct (unprintable _);
    intros [= <-]; try done; apply H.
Qed.

Lemma Buffer_from_octets d bytes :
  Buffer_from d = Some bytes → forallb octet bytes = true ∧ length bytes = length d.
Proof.
  unfold Buffer_from. rewrite mapM_Some.
  induction 1 as [|x b d bytes Hx _ [IH1 IH2]]; [done|]. simpl.
  by rewrite (ToUint8_octet x b Hx), IH1, IH2.
Qed.


Lemma Buffer_from_ints bytes :
  Forall (fun b => 0 ≤ b < 256)%Z bytes →
  Buffer_from ((fun b => VNum (int b)) <$> bytes) = Some bytes.
Proof.
  intros Hb. unfold Buffer_from. apply mapM_Some.
  induction Hb as [|b bytes Hr _ IH]; constructor; [|done].
  simpl. rewrite int_safe by (by apply octet_safe). by rewrite Z.mod_small.
Qed.

Lemma revive_array k l :
  revive k (JArray l)
  = VArr <$> mapM id (map_indexed (fun i x => revive (show_index i) x) 0 l).
Proof.
  change (revive k (JArray l))
    with (mapM id (map_indexed (fun i x => revive (show_index i) x) 0 l)
          ≫= fun l' => reviver k (VArr l')).
  by destruct (mapM id _).
Qed.

Lemma revive_object k m :
  revive k (JObject m)
  = collect (map_imap (fun k' x => Some (revive k' x)) m)
    ≫= fun m' => reviver k (VObj m').
Proof. done. Qed.

Lemma revive_array_Some k l v :
  revive k (JArray l) = Some v ↔
  ∃ l', map_indexed (fun i x => revive (show_index i) x) 0 l = Some <$> l' ∧
        v = VArr l'.
Proof.
  rewrite revive_array. split.
  - destruct (mapM id _) as [l'|] eqn:Hl; [|done]. intros [= <-].
    exists l'. by apply sequence_Some in Hl.
  - intros (l' & Hl & ->). apply sequence_Some in Hl. by rewrite Hl.
Qed.

Lemma revive_object_Some k m v :
  revive k (JObject m) = Some v ↔
  ∃ m', map_imap (fun k' x => Some (revive k' x)) m = Some <$> m' ∧
        reviver k (VObj m') = Some v.
Proof.
  rewrite revive_object. split.
  - destruct (collect _) as [m'|] eqn:Hm; [|done]. simpl. intros Hv.
    exists m'. by apply collect_Some in Hm.
  - intros (m' & Hm & Hv). apply collect_Some in Hm. by rewrite Hm.
Qed.

Lemma revived_member (m : gmap string json) (m' : gmap string value) k :
  map_imap (fun k' x => Some (revive k' x)) m = Some <$> m' →
  m' !! k = m !! k ≫= revive k.
Proof.
  intros Hm. apply (f_equal (fun M => M !! k)) in Hm.
  rewrite map_lookup_imap, lookup_fmap in Hm. symmetry in Hm.
  destruct (m !! k) as [x|]; simpl in *; [by apply fmap_Some_inj|].
  by destruct (m' !! k).
Qed.

Lemma revived_element (l : list json) (l' : list value) x :
  map_indexed (fun i x => revive (show_index i) x) 0 l = Some <$> l' → x ∈ l' →
  ∃ i y, y ∈ l ∧ revive (show_index i) y = Some x.
Proof.
  intros Hl Hx.
  assert (Hin : Some x ∈ map_indexed (fun i x => revive (show_index i) x) 0 l)
    by (rewrite Hl; by apply list_elem_of_fmap_2).
  destruct (map_indexed_lookup _ _ _ _ Hin) as (i & y & Hy & Hr). by exists i, y.
Qed.

(** What [deserialise] yields holds no plain object of the tagged shape, and
    its buffers hold octets. *)
Lemma revive_stable : ∀ j k v, revive k j = Some v → wire_stable v = true.
Proof.
  intros j. remember (json_size j) as n eqn:Hn. revert j Hn.
  induction (lt_wf n) as [n _ IH]. intros j -> k v Hv.
  destruct j as [| | | |l|m]; try (by injection Hv as <-).
  - (* array *)
    apply revive_array_Some in Hv as (l' & Hl & ->).
    assert (Hs : ∀ x, x ∈ l' → wire_stable x = true).
    { intros x Hx. destruct (revived_element _ _ _ Hl Hx) as (i & y & Hy & Hr).
      by apply (IH _ (json_size_element l y Hy) y eq_refl (show_index i)). }
    unfold wire_stable. apply andb_true_iff.
    split; apply list_all_intro; intros x Hx; specialize (Hs x Hx);
      unfold wire_stable in Hs; by apply andb_true_iff in Hs as [? ?].
  - (* object *)
    apply revive_object_Some in Hv as (M & HM & Hv).
    assert (Hs : ∀ k' x, M !! k' = Some x → wire_stable x = true).
    { intros k' x Hx. rewrite (revived_member m M k' HM) in Hx.
      destruct (m !! k') as [y|] eqn:Hy; [|done]. simpl in Hx.
      by apply (IH _ (json_size_member m k' y Hy) y eq_refl k'). }
    destruct (tagged M) eqn:Ht.
    + destruct (reviver_tagged k M Ht) as (d & _ & Hr). rewrite Hr in Hv.
      destruct (Buffer_from d) as [bytes|] eqn:Hb; [|done]. injection Hv as <-.
      unfold wire_stable. simpl. by apply (Buffer_from_octets d).
    + rewrite (reviver_plain k M Ht) in Hv. injection Hv as <-.
      unfold wire_stable. simpl. rewrite Ht. simpl.
      apply andb_true_iff. split; apply map_all_intro; intros k' x Hx;
        specialize (Hs k' x Hx); unfold wire_stable in Hs;
        by apply andb_true_iff in Hs as [? ?].
Qed.

Lemma revive_numbers (bytes : list Z) : ∀ i,
  map_indexed (fun i x => revive (show_index i) x) i
    ((fun b => JNumber (int b)) <$> bytes)
  = Some <$> ((fun b => VNum (int b)) <$> bytes).
Proof.
  induction bytes as [|b bytes IH]; intros i; [done|].
  cbn [fmap list_fmap map_indexed]. f_equal. apply IH.
Qed.

Lemma revive_buffer k bytes :
  Forall (fun b => 0 ≤ b < 256)%Z bytes →
  revive k (toJSON (VBuffer bytes)) = Some (VBuffer bytes).
Proof.
  intros Hb. cbn [toJSON]. apply revive_object_Some.
  exists {[ "type"%string := VStr "Buffer";
            "data"%string := VArr ((fun b => VNum (int b)) <$> bytes) ]}.
  split.
  - apply map_eq. intros k'. rewrite map_lookup_imap, lookup_fmap.
    destruct (decide (k' = "type"%string)) as [->|?]; [by rewrite !lookup_insert_eq|].
    rewrite !lookup_insert_ne by done.
    destruct (decide (k' = "data"%string)) as [->|?].
    + rewrite !lookup_singleton_eq.
      cbn [mbind option_bind fmap option_fmap option_map]. f_equal.
      apply revive_array_Some. eexists. split; [apply revive_numbers | done].
    + by rewrite !lookup_singleton_ne.
  - unfold reviver. rewrite lookup_insert_eq, lookup_insert_ne by done.
    rewrite lookup_singleton_eq. rewrite decide_True by done.
    by rewrite (Buffer_from_ints bytes Hb).
Qed.

(** [deserialise] undoes [JSON.stringify] on every value that holds no plain
    object of the tagged shape and whose buffers hold octets. *)
Lemma revive_toJSON : ∀ v k, wire_stable v = true → revive k (toJSON v) = Some v.
Proof.
  intros v. remember (value_size v) as n eqn:Hn. revert v Hn.
  induction (lt_wf n) as [n _ IH]. intros v -> k Hv.
  unfold wire_stable in Hv. apply andb_true_iff in Hv as [Ht Ho].
  destruct v as [| | | |l|m|bytes]; try done.
  - (* array *)
    assert (Hel : ∀ x k', x ∈ l → revive k' (toJSON x) = Some x).
    { intros x k' Hx. apply (IH _ (value_size_element l x Hx) x eq_refl).
      unfold wire_stable.
      by rewrite (list_all_member tag_free l x Ht Hx), (list_all_member octets l x Ho Hx). }
    change (toJSON (VArr l)) with (JArray ((fun x => toJSON x) <$> l)).
    apply revive_array_Some. exists l. split; [|done].
    rewrite (map_indexed_fmap_ext _ (revive EmptyString) _ 0).
    2:{ intros j x Hx. apply list_elem_of_fmap in Hx as (y & -> & Hy).
        by rewrite !Hel. }
    rewrite <- list_fmap_compose. apply list_fmap_ext. intros i x Hix. simpl.
    apply Hel. by eapply list_elem_of_lookup_2.
  - (* object *)
    simpl in Ht, Ho. apply andb_true_iff in Ht as [Htag Ht].
    apply negb_true_iff in Htag.
    change (toJSON (VObj m)) with (JObject ((fun x => toJSON x) <$> m)).
    apply revive_object_Some. exists m. split; [|by apply reviver_plain].
    apply map_eq. intros k'. rewrite map_lookup_imap, !lookup_fmap.
    destruct (m !! k') as [x|] eqn:Hx; simpl; [|done]. f_equal.
    apply (IH _ (value_size_member m k' x Hx) x eq_refl).
    unfold wire_stable.
    by rewrite (map_all_member tag_free m k' x Ht Hx),
               (map_all_member octets m k' x Ho Hx).
  - (* buffer *)
    apply revive_buffer. by apply octets_range.
Qed.

(** *** Built messages, decoded *)
Lemma buildMsg_members verb msg data id w :
  ∃ M : gmap string value,
    (buildMsg verb msg data id w).1 = serialise (VObj M) ∧
    M !! "type"%string = None ∧
    M !! "msg"%string = Some (VStr msg) ∧
    M !! "verb"%string = Some (VStr verb) ∧
    M !! "data"%string = data ∧
    M !! "id"%string = Some (default (VStr (phrases w (drawn w))) id) ∧
    ∀ k x, M !! k = Some x →
      x = VStr verb ∨ x = VStr msg ∨ data = Some x ∨
      x = default (VStr (phrases w (drawn w))) id.
Proof.
  set (idv := default (VStr (phrases w (drawn w))) id).
  set (M := list_to_map (omap (fun kv : string * option value =>
                                 (fun v => (kv.1, v)) <$> kv.2)
              [("verb", Some (VStr verb)); ("msg", Some (VStr msg));
               ("data", data); ("id", Some idv)]%string) : gmap string value).
  exists M. split_and!.
  - unfold buildMsg. by destruct id.
  - unfold M. destruct data; simpl; by simplify_map_eq.
  - unfold M. destruct data; simpl; by simplify_map_eq.
  - unfold M. destruct data; simpl; by simplify_map_eq.
  - unfold M. destruct data; simpl; by simplify_map_eq.
  - unfold M. destruct data; simpl; by simplify_map_eq.
  - intros k x. unfold M. destruct data as [d|]; simpl; intros Hk.
    all: repeat (apply lookup_insert_Some in Hk as [[<- <-]|[? Hk]];
                 [by (try (by left); try (by right; left);
                      try (by do 2 right; left); try (by do 3 right))|]).
    all: by rewrite lookup_empty in Hk.
Qed.

Lemma deserialise_buildMsg verb msg data id w v :
  deserialise (buildMsg verb msg data id w).1 = Some v →
  ∃ M, v = VObj M ∧
    M !! "msg"%string = Some (VStr msg) ∧
    M !! "verb"%string = Some (VStr verb) ∧
    M !! "data"%string = data ≫= (fun d => revive "data" (toJSON d)) ∧
    M !! "id"%string
    = revive "id" (toJSON (default (VStr (phrases w (drawn w))) id)).
Proof.
  destruct (buildMsg_members verb msg data id w)
    as (M0 & -> & Htype & Hmsg & Hverb & Hdata & Hid & _).
  unfold deserialise, serialise.
  change (toJSON (VObj M0)) with (JObject ((fun x => toJSON x) <$> M0)).
  intros Hv. apply revive_object_Some in Hv as (M & HM & Hv).
  assert (HMk : ∀ k, M !! k = M0 !! k ≫= fun x => revive k (toJSON x)).
  { intros k. rewrite (revived_member _ M k HM), lookup_fmap. by destruct (M0 !! k). }
  rewrite reviver_plain in Hv by (unfold tagged; by rewrite HMk, Htype).
  injection Hv as <-. exists M. split; [done|].
  by rewrite !HMk, Hmsg, Hverb, Hdata, Hid.
Qed.

Lemma deserialise_buildMsg_stable verb msg data id w :
  from_option wire_stable true data = true →
  from_option wire_stable true id = true →
  ∃ M, deserialise (buildMsg verb msg data id w).1 = Some (VObj M) ∧
    M !! "msg"%string = Some (VStr msg) ∧
    M !! "verb"%string = Some (VStr verb) ∧
    M !! "data"%string = data ∧
    M !! "id"%string = Some (default (VStr (phrases w (drawn w))) id).
Proof.
  intros Hdata Hid.
  destruct (buildMsg_members verb msg data id w)
    as (M & -> & Htype & Hmsg & Hverb & Hd & Hi & Hall).
  exists M. split; [|done].
  unfold deserialise, serialise. apply revive_toJSON.
  assert (Hs : ∀ k x, M !! k = Some x → wire_stable x = true).
  { intros k x Hk. destruct (Hall k x Hk) as [->|[->|[->| ->]]]; try done.
    by destruct id. }
  unfold wire_stable. simpl. unfold tagged. rewrite Htype. simpl.
  apply andb_true_iff. split; apply map_all_intro; intros k x Hk;
    specialize (Hs k x Hk); unfold wire_stable in Hs;
    by apply andb_true_iff in Hs as [? ?].
Qed.


(** X1: [serialise] then [deserialise] gives back every value that holds
    no plain object of the tagged shape and only octets in its buffers. *)
Theorem deserialise_serialise v :
  wire_stable v = true → deserialise (serialise v) = Some v.
Proof. intros Hv. unfold deserialise, serialise. by apply revive_toJSON. Qed.

(** X2: whatever a frame decodes to holds no plain object of the tagged
    shape and only octets in its buffers; serialising and decoding it again
    gives the same value. *)
Theorem decoded_values_are_stable data v :
  deserialise data = Some v →
  wire_stable v = true ∧ deserialise (serialise v) = Some v.
Proof.
  destruct data as [raw|j]; [done|]. intros Hv.
  pose proof (revive_stable j EmptyString v Hv) as Hs.
  split; [done|]. unfold deserialise, serialise. by apply revive_toJSON.
Qed.

(** X3: a frame built by [buildPatchConfiguration old new] decodes unless
    the id passed makes the reviver throw, and once it decodes it is handled
    by a session that holds [old] by emitting RECONFIGURE with a fresh object
    holding [new]. *)
Theorem built_patch_is_applied on old new id ws w l :
  buffer_free old = true → same_container old new = true →
  wire_stable new = true →
  _appConfig (this w) = Some l → heap w !! l = Some old →
  let frame := (buildPatchConfiguration old new id ws).1 in
  (from_option wire_stable true id = true → deserialise frame ≠ None) ∧
  (deserialise frame ≠ None →
   ∃ dup w0,
     _handle on frame w
       = (run_listeners on EVENT.RECONFIGURE dup w0, Return None) ∧
     heap w !! dup = None ∧
     heap w0 !! dup = Some new ∧
     events w0 = events w ++ [(EVENT.RECONFIGURE, dup)] ∧
     snapshot w0 = Some old ∧
     outbox w0 = outbox w).
Proof.
  intros Hold Hcont Hnew Hl HC frame. subst frame.
  unfold buildPatchConfiguration in *.
  assert (Hpatch : wire_stable (value_of_patch (compare old new)) = true).
  { apply value_of_patch_stable. by apply diff_at_carries_stable. }
  split.
  - intros Hid.
    destruct (deserialise_buildMsg_stable VERB.PATCH MESSAGE.CONFIGURATION
                (Some (value_of_patch (compare old new))) id ws Hpatch Hid)
      as (M & -> & _). done.
  - intros Hdec. destruct (deserialise _) as [v|] eqn:Hd; [clear Hdec|done].
    destruct (deserialise_buildMsg _ _ _ _ _ _ Hd)
      as (M & -> & Hmsg & Hverb & Hdata & _).
    assert (Hpm : is_patch_message (VObj M) (compare old new)).
    { split_and!; try done. unfold field, get_property. rewrite Hdata.
      cbn [mbind option_bind].
      rewrite revive_toJSON by done. apply patch_roundtrip. }
    destruct (handle_patch_success ToNumber_text on _ w (VObj M) (compare old new)
                l old new new Hd Hpm Hl HC (inplace_compare old new Hold Hcont))
      as (dup & w0 & He & Hf & Hdup & Hev & _ & Hsnap & Hout).
    by exists dup, w0.
Qed.

Lemma handle_notify on data w msg :
  deserialise data = Some msg →
  field msg "msg" = Some (VStr MESSAGE.CONFIGURATION) →
  field msg "verb" = Some (VStr VERB.NOTIFY) →
  _handle on data w
  = (log (LogMsg msg) "Handling received message" w, Return None).
Proof.
  intros Hd Hk Hv. unfold _handle. rewrite Hd.
  destruct msg as [| | | |?|m|]; try done.
  unfold field in *. simpl in *. rewrite Hk, Hv.
  by rewrite !decide_True by done.
Qed.

(** X4: a CONFIGURATION/NOTIFY message changes nothing but the journal:
    its payload is not looked at, nothing is sent, emitted or allocated. *)
Theorem notify_is_ignored on data w msg :
  deserialise data = Some msg →
  field msg "msg" = Some (VStr MESSAGE.CONFIGURATION) →
  field msg "verb" = Some (VStr VERB.NOTIFY) →
  _handle on data w
  = (log (LogMsg msg) "Handling received message" w, Return None).
Proof. apply handle_notify. Qed.

(** X5: a frame that decodes to [null] makes [_handle] throw when it reads
    [msg.msg]; a frame that decodes to any other value that is not an object
    (a number, a string, an array, a [Buffer]) has no [msg] and no [id], and
    is answered UNSUPPORTED_MESSAGE under a generated id. *)
Theorem non_object_messages on data w msg :
  deserialise data = Some msg → (∀ m, msg ≠ VObj m) →
  readyState (this w) = OPEN →
  (msg = VNull →
   _handle on data w
   = (log (LogMsg msg) "Handling received message" w, Throw TypeError)) ∧
  (msg ≠ VNull →
   ∃ w', _handle on data w = (w', Return None) ∧
     outbox w' = outbox w ++
       [wire_message VERB.NOTIFY MESSAGE.ERROR (JString ERROR.UNSUPPORTED_MESSAGE)
          (JString (phrases w (drawn w)))] ∧
     events w' = events w ∧ heap w' = heap w).
Proof.
  intros Hd Hno Hopen. split.
  - intros ->. unfold _handle. by rewrite Hd.
  - intros Hnn.
    assert (Hf : ∀ k, field msg k = None).
    { intros k. destruct msg as [| | | |?|m|]; try done. by destruct (Hno m). }
    rewrite (handle_reply_unsupported ToNumber_text on data w msg Hd Hnn)
      by (right; by rewrite Hf).
    cbn zeta. rewrite decide_False by (by rewrite Hf). rewrite Hf.
    eexists. split; [reflexivity|].
    by destruct (reply_sent ERROR.UNSUPPORTED_MESSAGE None
                   (log (LogMsg msg) "Handling received message" w) w)
      as (? & ? & ? & ?).
Qed.

(** X6: a CONFIGURATION/PATCH message handled by a client whose [_appConfig]
    is [undefined] makes [_handle] throw ([JSON.parse] of [undefined]); the
    patch is not looked at, nothing is allocated, emitted or sent. *)
Theorem patch_without_configuration on data w msg :
  deserialise data = Some msg →
  field msg "msg" = Some (VStr MESSAGE.CONFIGURATION) →
  field msg "verb" = Some (VStr VERB.PATCH) →
  _appConfig (this w) = None →
  _handle on data w
  = (log (LogMsg msg) "Handling received message" w, Throw SyntaxError).
Proof.
  intros Hd Hk Hv Hnone. unfold _handle. rewrite Hd.
  destruct msg as [| | | |?|m|]; try done.
  unfold field in *. simpl in *. rewrite Hk, Hv.
  rewrite decide_True by done. rewrite decide_False by done.
  rewrite decide_True by done. unfold snapshot. simpl. by rewrite Hnone.
Qed.

(** X7: [reconfigure] throws unless the port passed (0 when omitted) is the
    remote port of the socket; the closure it returns installs the logger and
    the configuration passed, or, for an omitted one, the logger or
    configuration the client had when [reconfigure] was called, whatever the
    client holds when the closure runs. *)
Theorem reconfigure_captures_defaults logger port appConfig w :
  (default 0%Z port ≠ remotePort (this w) →
   reconfigure logger port appConfig w = None) ∧
  (default 0%Z port = remotePort (this w) →
   ∃ k, reconfigure logger port appConfig w = Some k ∧
     ∀ w', _logger (this (k w')) = default (_logger (this w)) logger ∧
           _appConfig (this (k w'))
           = match appConfig with
             | Some l => Some l
             | None => _appConfig (this w)
             end ∧
           remotePort (this (k w')) = remotePort (this w') ∧
           readyState (this (k w')) = readyState (this w') ∧
           heap (k w') = heap w' ∧ outbox (k w') = outbox w' ∧
           events (k w') = events w').
Proof.
  unfold reconfigure. split; intros Hp.
  - by rewrite decide_False.
  - rewrite decide_True by done. eexists. split; [reflexivity|]. done.
Qed.


(** X9: a frame built by one client's builders and handled by another:
    a CONFIGURATION/NOTIFY decodes unless the configuration passed makes the
    reviver throw, and once it decodes it changes nothing; a
    CONFIGURATION/READ is answered UNSUPPORTED_VERB, and every ERROR/NOTIFY
    is itself answered with an ERROR/NOTIFY UNSUPPORTED_MESSAGE; the answers
    carry the id of the frame they answer. *)
Theorem built_frames_are_answered on b id ws w :
  readyState (this w) = OPEN →
  let frame := (run_builder b (VStr <$> id) ws).1 in
  let idj := JString (default (phrases ws (drawn ws)) id) in
  let answered code :=
    ∃ w', _handle on frame w = (w', Return None) ∧
      outbox w' = outbox w ++
        [wire_message VERB.NOTIFY MESSAGE.ERROR (JString code) idj] ∧
      events w' = events w ∧ heap w' = heap w in
  match b with
  | Build_CONFIGURATION_PATCH _ _ => True
  | Build_CONFIGURATION_NOTIFY config =>
      (from_option wire_stable true config = true → deserialise frame ≠ None) ∧
      (deserialise frame ≠ None →
       ∃ w', _handle on frame w = (w', Return None) ∧
         outbox w' = outbox w ∧ events w' = events w ∧ heap w' = heap w)
  | Build_CONFIGURATION_READ => answered ERROR.UNSUPPORTED_VERB
  | _ => answered ERROR.UNSUPPORTED_MESSAGE
  end.
Proof.
  intros Hopen frame idj answered.
  assert (Hans : ∀ verb kind data code,
            wire_stable data = true →
            (verb ≠ VERB.NOTIFY ∨ kind ≠ MESSAGE.CONFIGURATION) →
            (verb ≠ VERB.PATCH ∨ kind ≠ MESSAGE.CONFIGURATION) →
            code = (if decide (kind = MESSAGE.CONFIGURATION)
                    then ERROR.UNSUPPORTED_VERB else ERROR.UNSUPPORTED_MESSAGE) →
            ∃ w', _handle on (buildMsg verb kind (Some data) (VStr <$> id) ws).1 w
                  = (w', Return None) ∧
              outbox w' = outbox w ++
                [wire_message VERB.NOTIFY MESSAGE.ERROR (JString code) idj] ∧
              events w' = events w ∧ heap w' = heap w).
  { intros verb kind data code Hdata Hv1 Hv2 ->.
    destruct (deserialise_buildMsg_stable verb kind (Some data) (VStr <$> id) ws)
      as (M & Hd & Hmsg & Hverb & _ & Hidm); [done | by destruct id |].
    assert (Hid : default (VStr (phrases ws (drawn ws))) (VStr <$> id)
                  = VStr (default (phrases ws (drawn ws)) id)) by (by destruct id).
    rewrite Hid in Hidm.
    rewrite (handle_reply_unsupported ToNumber_text on _ w (VObj M) Hd);
      [|done| |]; unfold field; simpl; rewrite ?Hmsg, ?Hverb.
    2:{ destruct Hv1; [left|right]; congruence. }
    2:{ destruct Hv2; [left|right]; congruence. }
    rewrite Hidm. eexists. split; [reflexivity|].
    destruct (reply_sent
                (if decide (Some (VStr kind) = Some (VStr MESSAGE.CONFIGURATION))
                 then ERROR.UNSUPPORTED_VERB else ERROR.UNSUPPORTED_MESSAGE)
                (Some (VStr (default (phrases ws (drawn ws)) id)))
                (log (LogMsg (VObj M)) "Handling received message" w) w)
      as (Ho & _ & He & Hh); try done.
    split_and!; try done. rewrite Ho. do 3 f_equal.
    destruct (decide (kind = MESSAGE.CONFIGURATION)) as [->|Hne].
    - by rewrite decide_True.
    - rewrite decide_False; [done | congruence]. }
  destruct b as [o n| |config| | |]; [done|..].
  - apply Hans; [done | by left | by left | done].
  - subst frame. simpl. unfold build.CONFIGURATION.NOTIFY. split.
    + intros Hconfig.
      destruct (deserialise_buildMsg_stable VERB.NOTIFY MESSAGE.CONFIGURATION
                  config (VStr <$> id) ws Hconfig) as (M & -> & _);
        [by destruct id | done].
    + intros Hdec. destruct (deserialise _) as [v|] eqn:Hd; [clear Hdec|done].
      destruct (deserialise_buildMsg _ _ _ _ _ _ Hd) as (M & -> & Hmsg & Hverb & _).
      rewrite (handle_notify on _ w (VObj M) Hd) by done.
      by eexists.
  - apply Hans; [done | by right | by right | done].
  - apply Hans; [done | by right | by right | done].
  - apply Hans; [done | by right | by right | done].
Qed.

(** X10: handling one frame has at most one outward effect: either nothing
    is sent or emitted, or exactly one frame is sent, which is an
    ERROR/NOTIFY with one of the three error codes, or exactly one
    RECONFIGURE is emitted and nothing is sent.  The client's fields are not
    touched, and at most one object, a fresh one, is added to the heap. *)
Theorem one_effect_per_frame data w :
  let w' := (_handle [] data w).1 in
  this w' = this w ∧
  (heap w' = heap w ∨ ∃ v, heap w' = <[fresh (dom (heap w)):=v]> (heap w)) ∧
  ((outbox w' = outbox w ∧ events w' = events w) ∨
   (∃ code id,
      outbox w' = outbox w ++
        [wire_message VERB.NOTIFY MESSAGE.ERROR (JString code) id] ∧
      code ∈ [ERROR.JSON_PARSE_ERROR; ERROR.UNSUPPORTED_VERB;
              ERROR.UNSUPPORTED_MESSAGE] ∧
      events w' = events w ∧ heap w' = heap w) ∨
   (events w' = events w ++ [(EVENT.RECONFIGURE, fresh (dom (heap w)))] ∧
    outbox w' = outbox w)).
Proof.
  intros w'. subst w'. unfold _handle.
  assert (Hreply : ∀ (code : string) id w0,
    this w0 = this w → heap w0 = heap w → outbox w0 = outbox w →
    events w0 = events w →
    code ∈ [ERROR.JSON_PARSE_ERROR; ERROR.UNSUPPORTED_VERB;
            ERROR.UNSUPPORTED_MESSAGE] →
    let br := buildMsg VERB.NOTIFY MESSAGE.ERROR (Some (VStr code)) id w0 in
    let w' := send br.1 br.2 in
    this w' = this w ∧
    (heap w' = heap w ∨ ∃ v, heap w' = <[fresh (dom (heap w)):=v]> (heap w)) ∧
    ((outbox w' = outbox w ∧ events w' = events w) ∨
     (∃ code id,
        outbox w' = outbox w ++
          [wire_message VERB.NOTIFY MESSAGE.ERROR (JString code) id] ∧
        code ∈ [ERROR.JSON_PARSE_ERROR; ERROR.UNSUPPORTED_VERB;
                ERROR.UNSUPPORTED_MESSAGE] ∧
        events w' = events w ∧ heap w' = heap w) ∨
     (events w' = events w ++ [(EVENT.RECONFIGURE, fresh (dom (heap w)))] ∧
      outbox w' = outbox w))).
  { intros code id w0 Ht Hh Ho He Hcode br w'. subst br w'.
    match goal with
    | |- context [send ?f ?w1] => destruct (send_world f w1) as (Hst & Hsh & Hse & Hso)
    end.
    destruct (buildMsg_world VERB.NOTIFY MESSAGE.ERROR (Some (VStr code)) id w0)
      as (Hbt & Hbh & Hbo & Hbe & _).
    rewrite Hst, Hsh, Hse, Hso, Hbt, Hbh, Hbe, Hbo, Ht, Hh, Ho, He.
    split; [done|]. split; [by left|].
    destruct (readyState (this w)); try (by left).
    right; left. eexists code, _. rewrite buildMsg_frame. done. }
  destruct (deserialise data) as [msg|].
  2:{ rewrite (surjective_pairing (build.ERROR.NOTIFY.JSON_PARSE_ERROR _ _)).
      apply Hreply; try done. by left. }
  destruct (get_property msg "msg") as [|kind]; [by split_and!; [|left|left]|].
  cbn zeta. generalize (field msg "verb") as verb, (field msg "id") as id,
    (field msg "data") as payload. intros verb id payload.
  case_decide.
  2:{ rewrite (surjective_pairing (build.ERROR.NOTIFY.UNSUPPORTED_MESSAGE _ _)).
      apply Hreply; try done. by do 2 right; left. }
  case_decide; [by split_and!; [|left|left]|]. case_decide.
  2:{ rewrite (surjective_pairing (build.ERROR.NOTIFY.UNSUPPORTED_VERB _ _)).
      apply Hreply; try done. by right; left. }
  destruct (snapshot _) as [conf|]; [|by split_and!; [|left|left]].
  simpl. destruct (payload ≫= patch_of_value) as [patch|]; simpl.
  2:{ split_and!; [done|right; by eexists|by left]. }
  destruct (applyPatch (parse (toJSON conf)) patch) as [obj [res|]]; simpl.
  - split_and!; [done|right; eexists; by rewrite insert_insert_eq|right; by right].
  - split_and!; [done|right; eexists; by rewrite insert_insert_eq|by left].
Qed.
(** X11: two PATCH frames handled one after the other, both applied with
    success, emit two different fresh objects; handling the second leaves
    the object emitted for the first, and the document the session holds, as
    they were. *)
Theorem emitted_documents_are_distinct data1 data2 w msg1 msg2 P1 P2 l C C1 r1 C2 r2 :
  deserialise data1 = Some msg1 → is_patch_message msg1 P1 →
  deserialise data2 = Some msg2 → is_patch_message msg2 P2 →
  _appConfig (this w) = Some l → heap w !! l = Some C →
  applyPatch (parse (toJSON C)) P1 = (C1, Some r1) →
  applyPatch (parse (toJSON C)) P2 = (C2, Some r2) →
  let w1 := (_handle [] data1 w).1 in
  let w2 := (_handle [] data2 w1).1 in
  ∃ d1 d2,
    d1 ≠ d2 ∧ d1 ≠ l ∧ d2 ≠ l ∧
    events w2 = events w ++ [(EVENT.RECONFIGURE, d1); (EVENT.RECONFIGURE, d2)] ∧
    heap w2 !! d1 = Some C1 ∧ heap w2 !! d2 = Some C2 ∧ heap w2 !! l = Some C.
Proof.
  intros Hd1 Hm1 Hd2 Hm2 Hl HC Ha1 Ha2 w1 w2.
  destruct (handle_patch_success ToNumber_text [] data1 w msg1 P1 l C C1 r1
              Hd1 Hm1 Hl HC Ha1)
    as (d1 & w1' & He1 & Hf1 & Hdup1 & Hev1 & Ht1 & Hs1 & _).
  assert (Hw1 : w1 = w1') by (subst w1; by rewrite He1).
  assert (Hl1 : _appConfig (this w1) = Some l) by (by rewrite Hw1, Ht1).
  assert (HC1 : heap w1 !! l = Some C).
  { rewrite Hw1. unfold snapshot in Hs1. by rewrite Ht1, Hl in Hs1. }
  destruct (handle_patch_success ToNumber_text [] data2 w1 msg2 P2 l C C2 r2
              Hd2 Hm2 Hl1 HC1 Ha2)
    as (d2 & w2' & He2 & Hf2 & Hdup2 & Hev2 & Ht2 & Hs2 & _).
  assert (Hw2 : w2 = w2') by (subst w2; by rewrite He2).
  destruct (handle_frame ToNumber_text [] data2 w1 ltac:(constructor)) as [_ Hkeep].
  fold w2 in Hkeep.
  exists d1, d2. rewrite Hw2, Hev2, Hw1, Hev1, <- app_assoc. split_and!; try done.
  - intros ->. rewrite Hw1 in Hf2. congruence.
  - intros ->. congruence.
  - intros ->. rewrite Hw1 in Hf2, HC1. congruence.
  - rewrite <- Hw2. apply Hkeep. by rewrite Hw1.
  - rewrite <- Hw2. by apply Hkeep.
Qed.
End MoreClientFacts.

(** * The further facts at work on the sample sessions *)
Import MoreSamples.



Lemma deserialise_serialise_witness :
  deserialise ToNumber_text (serialise doc_key) = Some doc_key.
Proof. apply (deserialise_serialise ToNumber_text doc_key); run. Defined.

Lemma decoded_values_are_stable_witness :
  deserialise ToNumber_text tagged_frame = Some (VBuffer [44; 0]%Z) ∧
  wire_stable (VBuffer [44; 0]%Z) = true ∧
  deserialise ToNumber_text (serialise (VBuffer [44; 0]%Z))
  = Some (VBuffer [44; 0]%Z).
Proof.
  split; [run|].
  apply (decoded_values_are_stable ToNumber_text tagged_frame); run.
Defined.

Lemma built_patch_is_applied_witness :
  ∃ dup w0,
    _handle ToNumber_text []
      (buildPatchConfiguration doc_a1 doc_a2b None session).1 session
      = (run_listeners [] EVENT.RECONFIGURE dup w0, Return None) ∧
    heap session !! dup = None ∧
    heap w0 !! dup = Some doc_a2b ∧
    events w0 = events session ++ [(EVENT.RECONFIGURE, dup)] ∧
    snapshot w0 = Some doc_a1 ∧
    outbox w0 = outbox session.
Proof.
  destruct (built_patch_is_applied ToNumber_text [] doc_a1 doc_a2b None session
              session 1%positive) as [Hdecodes Hemits]; [run ..|].
  apply Hemits, Hdecodes. run.
Defined.

Lemma notify_is_ignored_witness :
  let frame := (build.CONFIGURATION.NOTIFY (Some doc_a2) None session).1 in
  _handle ToNumber_text [] frame session
  = (log (LogMsg (decoded frame)) "Handling received message" session, Return None).
Proof.
  intros frame.
  apply (notify_is_ignored ToNumber_text [] frame session (decoded frame)); run.
Defined.

Lemma non_object_messages_witness :
  _handle ToNumber_text [] (JsonText JNull) session
  = (log (LogMsg VNull) "Handling received message" session, Throw TypeError) ∧
  ∃ w', _handle ToNumber_text [] tagged_frame session = (w', Return None) ∧
    outbox w' = outbox session ++
      [wire_message VERB.NOTIFY MESSAGE.ERROR (JString ERROR.UNSUPPORTED_MESSAGE)
         (JString "phrase 0")] ∧
    events w' = events session ∧ heap w' = heap session.
Proof.
  split.
  - apply (non_object_messages ToNumber_text [] (JsonText JNull) session VNull); run.
  - apply (non_object_messages ToNumber_text [] tagged_frame session
             (decoded tagged_frame)); run.
Defined.

Lemma patch_without_configuration_witness :
  let frame := patch_frame doc_a1 doc_a2b "id-1" in
  _handle ToNumber_text [] frame blank_session
  = (log (LogMsg (decoded frame)) "Handling received message" blank_session,
     Throw SyntaxError).
Proof.
  intros frame.
  apply (patch_without_configuration ToNumber_text [] frame blank_session
           (decoded frame)); run.
Defined.

Lemma reconfigure_captures_defaults_witness :
  reconfigure None None None session = None ∧
  ∃ k, reconfigure None (Some 4003%Z) None session = Some k ∧
    _appConfig (this (k (restart 7 (Some 9%positive) session))) = Some 1%positive ∧
    _logger (this (k (restart 7 (Some 9%positive) session))) = 0.
Proof.
  destruct (reconfigure_captures_defaults None None None session) as [Hthrow _].
  destruct (reconfigure_captures_defaults None (Some 4003%Z) None session)
    as [_ Hrun].
  split; [apply Hthrow; run|].
  destruct Hrun as (k & Hk & Hfields); [run|].
  exists k. split; [exact Hk|].
  destruct (Hfields (restart 7 (Some 9%positive) session)) as (Hlog & Hconf & _).
  split; [exact Hconf | exact Hlog].
Defined.


Lemma built_frames_are_answered_witness :
  let frame := (build.ERROR.NOTIFY.UNSUPPORTED_VERB (Some (VStr "id-3")) session).1 in
  ∃ w', _handle ToNumber_text [] frame session = (w', Return None) ∧
    outbox w' = outbox session ++
      [wire_message VERB.NOTIFY MESSAGE.ERROR (JString ERROR.UNSUPPORTED_MESSAGE)
         (JString "id-3")] ∧
    events w' = events session ∧ heap w' = heap session.
Proof.
  apply (built_frames_are_answered ToNumber_text []
           Build_ERROR_NOTIFY_UNSUPPORTED_VERB (Some "id-3"%string) session session).
  run.
Defined.

Lemma emitted_documents_are_distinct_witness :
  let f1 := patch_frame doc_a1 doc_a2 "id-1" in
  let f2 := patch_frame doc_a1 doc_a1b "id-2" in
  let w1 := (_handle ToNumber_text [] f1 session).1 in
  let w2 := (_handle ToNumber_text [] f2 w1).1 in
  ∃ d1 d2,
    d1 ≠ d2 ∧ d1 ≠ 1%positive ∧ d2 ≠ 1%positive ∧
    events w2 = events session
                  ++ [(EVENT.RECONFIGURE, d1); (EVENT.RECONFIGURE, d2)] ∧
    heap w2 !! d1 = Some doc_a2 ∧ heap w2 !! d2 = Some doc_a1b ∧
    heap w2 !! 1%positive = Some doc_a1.
Proof.
  intros f1 f2.
  apply (emitted_documents_are_distinct ToNumber_text f1 f2 session
           (decoded f1) (decoded f2) (compare doc_a1 doc_a2) (compare doc_a1 doc_a1b)
           1%positive doc_a1 doc_a2 doc_a2 doc_a1b doc_a1b);
    [run | patch_message | run | patch_message | run ..].
Defined.
